(** * gestion-canciones: catalog synchronisation and query layer

    A shallow embedding of the song catalog manager: the CSV importer
    ([CSVImporter]), the Firestore adapter ([FirebaseManager]), the filter
    engine ([FilterManager], [StorageManager.searchSongs]) and the state
    handling of the orchestrator ([SongManager]), followed by the local
    store ([StorageManager]) and the line wrapping of the PDF export
    ([PDFGenerator.wrapText]).

    JavaScript strings are modelled as lists of 8-bit code units (the bytes
    of the UTF-8 text).  [toLowerCase] and [trim] act on the ASCII range:
    letters A-Z are lowered, and the blanks are the six ASCII ones. *)

From Stdlib Require Import Ascii String.
From stdpp Require Import base list strings gmap.

Set Default Proof Using "Type".
Local Open Scope list_scope.

(** ** JavaScript strings *)

Abbreviation jstring := (list ascii).

Definition str (s : string) : jstring := list_ascii_of_string s.

Definition dquote : ascii := ascii_of_nat 34.
Definition comma : ascii := ascii_of_nat 44.
Definition newline : ascii := ascii_of_nat 10.

(** [String.prototype.toLowerCase], ASCII range: the statements about
    case ask for ASCII text ([Ascii7]). *)
Definition lower_char (c : ascii) : ascii :=
  let n := nat_of_ascii c in
  if (65 <=? n) && (n <=? 90) then ascii_of_nat (n + 32) else c.

Definition toLowerCase (s : jstring) : jstring := lower_char <$> s.

(** [String.prototype.includes]: [t] occurs in [s] as a contiguous run. *)
Fixpoint startsWith (s t : jstring) : bool :=
  match t, s with
  | [], _ => true
  | _ :: _, [] => false
  | c :: t', d :: s' => bool_decide (c = d) && startsWith s' t'
  end.

Fixpoint includes (s t : jstring) : bool :=
  startsWith s t ||
  match s with
  | [] => false
  | _ :: s' => includes s' t
  end.

(** [String.prototype.trim]: blanks are TAB, LF, VT, FF, CR and SPACE, the
    blanks of the ASCII range; the statements that depend on the others
    ask for a text without them ([PlainBlanks]). *)
Definition isSpace (c : ascii) : bool :=
  let n := nat_of_ascii c in
  ((9 <=? n) && (n <=? 13)) || (n =? 32).

Fixpoint trimStart (s : jstring) : jstring :=
  match s with
  | [] => []
  | c :: s' => if isSpace c then trimStart s' else s
  end.

Definition trimEnd (s : jstring) : jstring := reverse (trimStart (reverse s)).

Definition trim (s : jstring) : jstring := trimStart (trimEnd s).

(** [String.prototype.split] on a one-character separator: never empty. *)
Fixpoint split (sep : ascii) (s : jstring) : list jstring :=
  match s with
  | [] => [[]]
  | c :: s' =>
      if decide (c = sep) then [] :: split sep s'
      else match split sep s' with
           | [] => [[c]]
           | r :: rs => (c :: r) :: rs
           end
  end.

(** [Array.prototype.join] with a one-character separator. *)
Fixpoint join (sep : ascii) (l : list jstring) : jstring :=
  match l with
  | [] => []
  | [x] => x
  | x :: l' => x ++ sep :: join sep l'
  end.

(** ** CSVImporter.parseCSVLine *)

(** The loop of [parseCSVLine], with its three locals as accumulators. *)
Fixpoint parseCSVLine_loop (line : jstring) (result : list jstring)
    (current : jstring) (inQuotes : bool) : list jstring :=
  match line with
  | [] => result ++ [current]
  | char :: rest =>
      if bool_decide (char = dquote) then
        parseCSVLine_loop rest result current (negb inQuotes)
      else if bool_decide (char = comma) && negb inQuotes then
        parseCSVLine_loop rest (result ++ [current]) [] inQuotes
      else
        parseCSVLine_loop rest result (current ++ [char]) inQuotes
  end.

Definition parseCSVLine (line : jstring) : list jstring :=
  parseCSVLine_loop line [] [] false.

(** ** Record model *)

(** A timestamp field: the [FieldValue.serverTimestamp()] sentinel sent by
    the client, or a time resolved by the server. *)
Inductive TimeField :=
  | ServerTimestamp
  | Stamp (t : nat).

(** A song object.  [id] and [comments] are absent on form drafts,
    [createdAt] and [updatedAt] exist only on what the store holds. *)
Record Song := mkSong {
  id : option jstring;
  artistName : jstring;
  songName : jstring;
  youtubeLink : jstring;
  state : jstring;
  type : jstring;
  comments : option jstring;
  createdAt : option TimeField;
  updatedAt : option TimeField
}.

Global Instance TimeField_eq_dec : EqDecision TimeField.
Proof. solve_decision. Defined.
Global Instance Song_eq_dec : EqDecision Song.
Proof. solve_decision. Defined.

(** A JavaScript string is truthy when it is not empty. *)
Definition truthy (s : jstring) : bool := negb (bool_decide (s = [])).

(** [x || ''] for a possibly missing string. *)
Definition orEmpty (x : option jstring) : jstring := default [] x.

(** ** CSVImporter: mapState, mapType, parseCSV *)

(** The keys of [stateMap]; keys inherited from [Object.prototype] are not
    modelled. *)
Definition stateMap : list jstring :=
  [str "Aprobado"; str "Por aprobar"; str "En grabación"; str "Listo";
   str "Rechazado"].

Definition typeMap : list jstring := [str "Lento"; str "Movido"].

Definition mapState (csvState : option jstring) : jstring :=
  match csvState with
  | Some s => if bool_decide (s ∈ stateMap) then s else str "Por aprobar"
  | None => str "Por aprobar"
  end.

Definition mapType (csvType : option jstring) : jstring :=
  match csvType with
  | Some s => if bool_decide (s ∈ typeMap) then s else str "Lento"
  | None => str "Lento"
  end.

(** [x || d] for a string [x]. *)
Definition orElse (x d : jstring) : jstring := if truthy x then x else d.

(** The song built from the parsed [values] of one row; [newId] stands for
    [Date.now().toString() + Math.random().toString(36).substr(2, 9)]. *)
Definition rowSong (isNewFormat : bool) (newId : jstring)
    (values : list jstring) : Song :=
  let field i := trim <$> values !! i in
  if isNewFormat then
    {| id := Some newId;
       artistName := orEmpty (field 1);
       songName := orEmpty (field 0);
       youtubeLink := orEmpty (field 5);
       state := orElse (mapState (field 2)) (str "Por aprobar");
       type := orElse (mapType (field 3)) (str "Lento");
       comments := Some (orEmpty (field 4));
       createdAt := None; updatedAt := None |}
  else
    {| id := Some newId;
       artistName := orEmpty (field 1);
       songName := orEmpty (field 0);
       youtubeLink := [];
       state := orElse (mapState (field 3)) (str "Por aprobar");
       type := orElse (mapType (field 4)) (str "Lento");
       comments := Some [];
       createdAt := None; updatedAt := None |}.

(** The [for] loop of [parseCSV] from index [i] on; [genId i] is the
    identifier drawn for row [i]. *)
Fixpoint parseCSV_rows (genId : nat → jstring) (headers : list jstring)
    (i : nat) (lines : list jstring) : list Song :=
  match lines with
  | [] => []
  | l :: lines' =>
      let line := trim l in
      let songs := parseCSV_rows genId headers (S i) lines' in
      if truthy line then
        let values := parseCSVLine line in
        if 4 <=? length values then
          let isNewFormat :=
            bool_decide (str "Estado" ∈ headers) && bool_decide (str "Tipo" ∈ headers) in
          rowSong isNewFormat (genId i) values :: songs
        else songs
      else songs
  end.

Definition parseCSV (genId : nat → jstring) (csvText : jstring) : list Song :=
  let lines := split newline csvText in
  let headers := trim <$> split comma (default [] (head lines)) in
  parseCSV_rows genId headers 1 (tail lines).

(** ** SongManager: escapeCSVField, generateCSVContent *)

(** The [replace] of [escapeCSVField]: every double quote is doubled. *)
Definition doubleQuotes (s : jstring) : jstring :=
  flat_map (λ c, if bool_decide (c = dquote) then [dquote; dquote] else [c]) s.

Definition escapeCSVField (field : option jstring) : jstring :=
  match field with
  | None => []
  | Some stringField =>
      if bool_decide (comma ∈ stringField) || bool_decide (dquote ∈ stringField)
         || bool_decide (newline ∈ stringField)
      then [dquote] ++ doubleQuotes stringField ++ [dquote]
      else stringField
  end.

Definition csvHeaders : list jstring :=
  [str "Nombre"; str "Artista"; str "Estado"; str "Tipo"; str "Comentarios";
   str "YouTube"].

Definition csvRow (song : Song) : jstring :=
  join comma
    [escapeCSVField (Some (songName song));
     escapeCSVField (Some (artistName song));
     escapeCSVField (Some (state song));
     escapeCSVField (Some (type song));
     escapeCSVField (Some (orEmpty (comments song)));
     escapeCSVField (Some (youtubeLink song))].

(** [generateCSVContent], over the songs of [this.filteredSongs]. *)
Definition generateCSVContent (filteredSongs : list Song) : jstring :=
  join newline (join comma csvHeaders :: (csvRow <$> filteredSongs)).

(** ** FilterManager.applyFilters, StorageManager.searchSongs *)

(** What [applyFilters] reads from the page. *)
Record FilterUI := mkFilterUI {
  searchValue : jstring;
  typeChecked : list jstring;
  stateChecked : list jstring
}.

(** The callback given to [songs.filter] in [applyFilters]. *)
Definition applyFilters_keep (searchInput : jstring)
    (selectedTypes selectedStates : list jstring) (song : Song) : bool :=
  let matchesSearch :=
    negb (truthy searchInput)
    || includes (toLowerCase (songName song)) searchInput
    || includes (toLowerCase (artistName song)) searchInput
    || match comments song with
       | Some c => truthy c && includes (toLowerCase c) searchInput
       | None => false
       end in
  let matchesType :=
    (length selectedTypes =? 0) || bool_decide (type song ∈ selectedTypes) in
  let matchesState :=
    (length selectedStates =? 0) || bool_decide (state song ∈ selectedStates) in
  matchesSearch && matchesType && matchesState.

(** The value [applyFilters] assigns to [filteredSongs]. *)
Definition applyFilters (ui : FilterUI) (songs : list Song) : list Song :=
  let searchInput := toLowerCase (searchValue ui) in
  List.filter (applyFilters_keep searchInput (typeChecked ui) (stateChecked ui)) songs.

(** The criteria object of [searchSongs]; each member may be missing. *)
Record Criteria := mkCriteria {
  search : option jstring;
  types : option (list jstring);
  states : option (list jstring)
}.

Definition searchSongs_keep (criteria : Criteria) (song : Song) : bool :=
  let matchesSearch :=
    match search criteria with
    | None => true
    | Some s =>
        negb (truthy s)
        || includes (toLowerCase (songName song)) (toLowerCase s)
        || includes (toLowerCase (artistName song)) (toLowerCase s)
        || match comments song with
           | Some c => truthy c && includes (toLowerCase c) (toLowerCase s)
           | None => false
           end
    end in
  let matchesType :=
    match types criteria with
    | None => true
    | Some ts => (length ts =? 0) || bool_decide (type song ∈ ts)
    end in
  let matchesState :=
    match states criteria with
    | None => true
    | Some ss => (length ss =? 0) || bool_decide (state song ∈ ss)
    end in
  matchesSearch && matchesType && matchesState.

(** [searchSongs], over the songs [loadSongs()] read from local storage. *)
Definition searchSongs (stored : list Song) (criteria : Criteria) : list Song :=
  List.filter (searchSongs_keep criteria) stored.

(** ** CSVImporter.handleFileImport: the duplicate filter *)

(** The computation of [newSongs] from [importedSongs] and the catalog. *)
Definition newSongs (importedSongs existingSongs : list Song) : list Song :=
  List.filter (λ importedSong,
    negb (existsb (λ existingSong,
      bool_decide (toLowerCase (artistName existingSong)
                   = toLowerCase (artistName importedSong))
      && bool_decide (toLowerCase (songName existingSong)
                      = toLowerCase (songName importedSong)))
      existingSongs))
    importedSongs.

(** ** The remote store *)

(** What a Firestore call can reject with. *)
Inductive Fault :=
  | Transport
  | NotFound
  | InvalidArgument.

(** What an adapter operation can reject with: the guard's own error when
    the readiness flag is not set, or the fault of the backend, rethrown. *)
Inductive Error :=
  | StoreUnavailable
  | RemoteError (f : Fault).

(** The Firestore collection ['songs'] behind [this.db], as an interface:
    each call maps the backend state to a new state and an outcome.  A
    snapshot lists the pairs of [doc.id] and [doc.data()]. *)
Class Firestore (B : Type) := {
  fs_add : Song → B → B * (Fault + jstring);
  fs_get : B → B * (Fault + list (jstring * Song));
  fs_get_ordered : B → B * (Fault + list (jstring * Song));
  fs_update : jstring → Song → B → B * (Fault + unit);
  fs_delete : jstring → B → B * (Fault + unit)
}.

(** The calls made on [this.db], for the trace. *)
Inductive Call :=
  | CallAdd (data : Song)
  | CallGet
  | CallGetOrdered
  | CallUpdate (docId : jstring) (data : Song)
  | CallDelete (docId : jstring).

(** What the adapter runs in: its readiness flag, the backend, the item
    ['songs'] of [localStorage] ([None] when the key is absent), and the
    trace of the calls made on the backend so far, oldest first. *)
Record World (B : Type) := mkWorld {
  isInitialized : bool;
  db : B;
  localStorage : option (list Song);
  calls : list Call
}.
Arguments mkWorld {B}.
Arguments isInitialized {B}.
Arguments db {B}.
Arguments localStorage {B}.
Arguments calls {B}.

(** Asynchronous methods: state passing with rejection. *)
Definition Async (B A : Type) : Type := World B → World B * (Error + A).

Definition resolve {B A} (a : A) : Async B A := λ w, (w, inr a).

Definition reject {B A} (e : Error) : Async B A := λ w, (w, inl e).

Definition await {B A C} (m : Async B A) (k : A → Async B C) : Async B C :=
  λ w, match m w with
       | (w', inr a) => k a w'
       | (w', inl e) => (w', inl e)
       end.

Global Instance Async_bind {B} : MBind (Async B) := λ A C k m, await m k.
Global Instance Async_ret {B} : MRet (Async B) := λ A a, resolve a.

(** [try { m } catch (error) { console.error(...) }]. *)
Definition tryLog {B A} (m : Async B A) : Async B unit :=
  λ w, (fst (m w), inr tt).

(** A call on [this.db]; a backend fault is logged and rethrown. *)
Definition call {B A} (c : Call) (op : B → B * (Fault + A)) : Async B A :=
  λ w, let '(b, r) := op (db w) in
       (mkWorld (isInitialized w) b (localStorage w) (calls w ++ [c]),
        match r with
        | inl f => inl (RemoteError f)
        | inr a => inr a
        end).

(** [JSON.parse(localStorage.getItem('songs') || '[]')]. *)
Definition legacyList {B} (w : World B) : list Song :=
  default [] (localStorage w).

Definition readLegacy {B} : Async B (list Song) :=
  λ w, (w, inr (legacyList w)).

(** [localStorage.removeItem('songs')]. *)
Definition removeItem {B} : Async B unit :=
  λ w, (mkWorld (isInitialized w) (db w) None (calls w), inr tt).

(** ** FirebaseManager *)

Section FirebaseManager.
Context {B : Type} `{!Firestore B}.

(** The guard at the head of every method. *)
Definition requireInitialized : Async B unit :=
  λ w, if isInitialized w then (w, inr tt) else (w, inl StoreUnavailable).

(** [{ id: doc.id, ...doc.data() }]: an [id] member of the data wins. *)
Definition docSong (doc : jstring * Song) : Song :=
  let '(docId, data) := doc in
  mkSong (match id data with Some i => Some i | None => Some docId end)
    (artistName data) (songName data) (youtubeLink data) (state data)
    (type data) (comments data) (createdAt data) (updatedAt data).

Definition loadSongs : Async B (list Song) :=
  requireInitialized ;;
  snapshot ← call CallGetOrdered fs_get_ordered ;
  resolve (docSong <$> snapshot).

Definition saveSongs (songs : list Song) : Async B bool :=
  requireInitialized ;;
  resolve true.

(** [const { id, ...songWithoutId } = song]. *)
Definition withoutId (song : Song) : Song :=
  mkSong None (artistName song) (songName song) (youtubeLink song)
    (state song) (type song) (comments song) (createdAt song)
    (updatedAt song).

(** [{ ...songWithoutId, createdAt: serverTimestamp(), updatedAt:
    serverTimestamp() }]. *)
Definition songData (song : Song) : Song :=
  let songWithoutId := withoutId song in
  mkSong (id songWithoutId) (artistName songWithoutId)
    (songName songWithoutId) (youtubeLink songWithoutId)
    (state songWithoutId) (type songWithoutId) (comments songWithoutId)
    (Some ServerTimestamp) (Some ServerTimestamp).

(** [{ ...songWithoutId, id: docRef.id }]. *)
Definition withId (songWithoutId : Song) (docId : jstring) : Song :=
  mkSong (Some docId) (artistName songWithoutId) (songName songWithoutId)
    (youtubeLink songWithoutId) (state songWithoutId) (type songWithoutId)
    (comments songWithoutId) (createdAt songWithoutId)
    (updatedAt songWithoutId).

Definition addSong (song : Song) : Async B Song :=
  requireInitialized ;;
  docId ← call (CallAdd (songData song)) (fs_add (songData song)) ;
  resolve (withId (withoutId song) docId).

(** [{ ...updatedSong, updatedAt: serverTimestamp() }]. *)
Definition updateData (updatedSong : Song) : Song :=
  mkSong (id updatedSong) (artistName updatedSong) (songName updatedSong)
    (youtubeLink updatedSong) (state updatedSong) (type updatedSong)
    (comments updatedSong) (createdAt updatedSong) (Some ServerTimestamp).

(** [this.db.collection('songs').doc(songId)]: a missing id is refused
    before the backend is reached.  (Version 8 of the SDK addresses a fresh
    document instead and lets the backend answer; no statement below rests
    on the difference, the outcomes being read off the adapter's answer.) *)
Definition onDoc {A} (songId : option jstring) (c : jstring → Call)
    (op : jstring → B → B * (Fault + A)) : Async B A :=
  match songId with
  | Some i => call (c i) (op i)
  | None => reject (RemoteError InvalidArgument)
  end.

Definition updateSong (songId : option jstring) (updatedSong : Song)
    : Async B bool :=
  requireInitialized ;;
  onDoc songId (λ i, CallUpdate i (updateData updatedSong))
    (λ i, fs_update i (updateData updatedSong)) ;;
  resolve true.

Definition deleteSong (songId : option jstring) : Async B bool :=
  requireInitialized ;;
  onDoc songId CallDelete fs_delete ;;
  resolve true.

(** The [for] loop of [migrateFromLocalStorage]. *)
Fixpoint migrate_each (localSongs : list Song) : Async B unit :=
  match localSongs with
  | [] => resolve tt
  | song :: rest =>
      tryLog (call (CallAdd (songData song)) (fs_add (songData song))) ;;
      migrate_each rest
  end.

Definition migrateFromLocalStorage : Async B unit :=
  requireInitialized ;;
  localSongs ← readLegacy ;
  if length localSongs =? 0 then resolve tt
  else
    snapshot ← call CallGet fs_get ;
    if length snapshot <? length localSongs
    then migrate_each localSongs
    else resolve tt.

End FirebaseManager.

(** ** SongManager *)

(** The array [this.filteredSongs] refers to: the very array of
    [this.songs] (after [this.filteredSongs = this.songs]), or one of its
    own. *)
Inductive FilteredRef :=
  | SameArray
  | OwnArray (l : list Song).

(** What the user is shown through [alert] and [confirm]. *)
Inductive Alert :=
  | AlertLoadError
  | AlertSaveError (e : Error)
  | AlertDeleteError (e : Error)
  | AlertNotCsv
  | AlertImportError
  | AlertNoValidSongs
  | AlertAllExist
  | ConfirmImport (found new existing : nat)
  | AlertImported (n : nat).

(** The five members of [formData]. *)
Record FormData := mkFormData {
  form_artistName : jstring;
  form_songName : jstring;
  form_youtubeLink : jstring;
  form_state : jstring;
  form_type : jstring
}.

(** [{ ...formData }] with the [id] given, if any. *)
Definition formSong (formData : FormData) (i : option jstring) : Song :=
  mkSong i (form_artistName formData) (form_songName formData)
    (form_youtubeLink formData) (form_state formData) (form_type formData)
    None None None.

(** The file picked in [fileInput]: its name, and its text unless reading
    it fails. *)
Record File := mkFile {
  file_name : jstring;
  file_text : option jstring
}.

Record SongManager (B : Type) := mkSongManager {
  firebaseManager : World B;
  songs : list Song;
  filteredSongs : FilteredRef;
  currentEditId : option jstring;
  songToDelete : option Song;
  cachedArtists : option (list jstring);
  page : FilterUI;
  alerts : list Alert
}.
Arguments mkSongManager {B}.
Arguments firebaseManager {B}.
Arguments songs {B}.
Arguments filteredSongs {B}.
Arguments currentEditId {B}.
Arguments songToDelete {B}.
Arguments cachedArtists {B}.
Arguments page {B}.
Arguments alerts {B}.

Section SongManager.
Context {B : Type} `{!Firestore B}.
Implicit Types sm : SongManager B.

(** The elements of [this.filteredSongs]. *)
Definition shown sm : list Song :=
  match filteredSongs sm with
  | SameArray => songs sm
  | OwnArray l => l
  end.

Definition setWorld (w : World B) sm : SongManager B :=
  mkSongManager w (songs sm) (filteredSongs sm) (currentEditId sm)
    (songToDelete sm) (cachedArtists sm) (page sm) (alerts sm).

(** A write into the array of [this.songs] ([push], [songs[i] = x]): an
    alias of the array sees it. *)
Definition mutateSongs (l : list Song) sm : SongManager B :=
  mkSongManager (firebaseManager sm) l (filteredSongs sm) (currentEditId sm)
    (songToDelete sm) (cachedArtists sm) (page sm) (alerts sm).

(** [this.songs = l] for a new array [l]: an alias keeps the old one. *)
Definition assignSongs (l : list Song) sm : SongManager B :=
  mkSongManager (firebaseManager sm) l (OwnArray (shown sm))
    (currentEditId sm) (songToDelete sm) (cachedArtists sm) (page sm)
    (alerts sm).

(** [this.filteredSongs = r]. *)
Definition assignFiltered (r : FilteredRef) sm : SongManager B :=
  mkSongManager (firebaseManager sm) (songs sm) r (currentEditId sm)
    (songToDelete sm) (cachedArtists sm) (page sm) (alerts sm).

(** A write into the array of [this.filteredSongs]. *)
Definition mutateFiltered (l : list Song) sm : SongManager B :=
  match filteredSongs sm with
  | SameArray => mutateSongs l sm
  | OwnArray _ => assignFiltered (OwnArray l) sm
  end.

Definition alert (a : Alert) sm : SongManager B :=
  mkSongManager (firebaseManager sm) (songs sm) (filteredSongs sm)
    (currentEditId sm) (songToDelete sm) (cachedArtists sm) (page sm)
    (alerts sm ++ [a]).

Definition invalidateArtistsCache sm : SongManager B :=
  mkSongManager (firebaseManager sm) (songs sm) (filteredSongs sm)
    (currentEditId sm) (songToDelete sm) None (page sm) (alerts sm).

(** [showModal(song)] and [hideModal()], as far as the state goes. *)
Definition showModal (song : option Song) sm : SongManager B :=
  mkSongManager (firebaseManager sm) (songs sm) (filteredSongs sm)
    (song ≫= id) (songToDelete sm) (cachedArtists sm) (page sm) (alerts sm).

Definition hideModal sm : SongManager B :=
  mkSongManager (firebaseManager sm) (songs sm) (filteredSongs sm)
    None (songToDelete sm) (cachedArtists sm) (page sm) (alerts sm).

Definition showDeleteModal (song : Song) sm : SongManager B :=
  mkSongManager (firebaseManager sm) (songs sm) (filteredSongs sm)
    (currentEditId sm) (Some song) (cachedArtists sm) (page sm) (alerts sm).

Definition hideDeleteModal sm : SongManager B :=
  mkSongManager (firebaseManager sm) (songs sm) (filteredSongs sm)
    (currentEditId sm) None (cachedArtists sm) (page sm) (alerts sm).

(** The user edits the search box or the check boxes. *)
Definition setPage (ui : FilterUI) sm : SongManager B :=
  mkSongManager (firebaseManager sm) (songs sm) (filteredSongs sm)
    (currentEditId sm) (songToDelete sm) (cachedArtists sm) ui (alerts sm).

(** [FilterManager.applyFilters()] on the orchestrator. *)
Definition applyFiltersOn sm : SongManager B :=
  assignFiltered (OwnArray (applyFilters (page sm) (songs sm))) sm.

(** [FilterManager.clearFilters()]. *)
Definition clearFilters sm : SongManager B :=
  assignFiltered SameArray (setPage (mkFilterUI [] [] []) sm).

(** [arr.findIndex(song => song.id === songId)]; [None] stands for -1. *)
Definition findIndexById (songId : option jstring) (l : list Song)
    : option nat :=
  fst <$> list_find (λ song, id song = songId) l.

(** [arr[index] = x]; with index -1 no element changes. *)
Definition setAt (index : option nat) (x : Song) (l : list Song)
    : list Song :=
  match index with
  | Some i => <[i := x]> l
  | None => l
  end.

(** [this.currentEditId] is truthy. *)
Definition editing sm : bool :=
  match currentEditId sm with
  | Some i => truthy i
  | None => false
  end.

Definition handleSubmit (formData : FormData) sm : SongManager B :=
  let outcome :=
    if editing sm then
      match updateSong (currentEditId sm) (formSong formData None)
              (firebaseManager sm) with
      | (w, inr updatedSong) =>
          let sm := setWorld w sm in
          inr (if updatedSong
               then
                 let index := findIndexById (currentEditId sm) (songs sm) in
                 mutateSongs
                   (setAt index (formSong formData (currentEditId sm))
                      (songs sm)) sm
               else sm)
      | (w, inl e) => inl (setWorld w sm, e)
      end
    else
      match addSong (formSong formData None) (firebaseManager sm) with
      | (w, inr newSong) =>
          let sm := setWorld w sm in
          inr (mutateSongs (songs sm ++ [newSong]) sm)
      | (w, inl e) => inl (setWorld w sm, e)
      end in
  match outcome with
  | inr sm => hideModal (applyFiltersOn (invalidateArtistsCache sm))
  | inl (sm, e) => alert (AlertSaveError e) sm
  end.

Definition confirmDelete sm : SongManager B :=
  match songToDelete sm with
  | None => sm
  | Some song =>
      match deleteSong (id song) (firebaseManager sm) with
      | (w, inr success) =>
          let sm := setWorld w sm in
          hideDeleteModal
            (if success
             then
               applyFiltersOn (invalidateArtistsCache
                 (assignSongs
                    (List.filter (λ s, negb (bool_decide (id s = id song)))
                       (songs sm)) sm))
             else sm)
      | (w, inl e) => alert (AlertDeleteError e) (setWorld w sm)
      end
  end.

(** [{ ...song, comments: comment }]. *)
Definition withComment (song : Song) (comment : jstring) : Song :=
  mkSong (id song) (artistName song) (songName song) (youtubeLink song)
    (state song) (type song) (Some comment) (createdAt song) (updatedAt song).

(** [updateComment(songId, comment)]; [inputFound] tells whether the page
    has the comment input of the song. *)
Definition updateComment (songId : jstring) (comment : jstring)
    (inputFound : bool) sm : SongManager B :=
  match list_find (λ song, id song = Some songId) (songs sm) with
  | None => sm
  | Some (_, song) =>
      if negb inputFound then sm
      else
        let updatedSong := withComment song comment in
        match updateSong (Some songId) updatedSong (firebaseManager sm) with
        | (w, inr success) =>
            let sm := setWorld w sm in
            if success then
              let index := findIndexById (Some songId) (songs sm) in
              let sm := mutateSongs (setAt index updatedSong (songs sm)) sm in
              match findIndexById (Some songId) (shown sm) with
              | Some filteredIndex =>
                  mutateFiltered
                    (<[filteredIndex := updatedSong]> (shown sm)) sm
              | None => sm
              end
            else sm
        | (w, inl _) => setWorld w sm
        end
  end.

(** The [for] loop of [handleFileImport]. *)
Fixpoint import_each (newSongs : list Song) sm : SongManager B :=
  match newSongs with
  | [] => sm
  | song :: rest =>
      match addSong song (firebaseManager sm) with
      | (w, inr addedSong) =>
          let sm := setWorld w sm in
          import_each rest (mutateSongs (songs sm ++ [addedSong]) sm)
      | (w, inl _) => import_each rest (setWorld w sm)
      end
  end.

(** [str.endsWith(suffix)]. *)
Definition endsWith (s suffix : jstring) : bool :=
  startsWith (reverse s) (reverse suffix).

(** [handleFileImport(fileInput)]: [file] is [fileInput.files[0]],
    [answer] what the user replies to [confirm], [genId] the identifiers
    [parseCSV] draws. *)
Definition handleFileImport (file : option File) (answer : bool)
    (genId : nat → jstring) sm : SongManager B :=
  match file with
  | None => sm
  | Some f =>
      if negb (endsWith (toLowerCase (file_name f)) (str ".csv"))
      then alert AlertNotCsv sm
      else
        match file_text f with
        | None => alert AlertImportError sm
        | Some csvText =>
            let importedSongs := parseCSV genId csvText in
            if length importedSongs =? 0 then alert AlertNoValidSongs sm
            else
              let existingSongs := songs sm in
              let newSongs := newSongs importedSongs existingSongs in
              if length newSongs =? 0 then alert AlertAllExist sm
              else
                let sm :=
                  alert (ConfirmImport (length importedSongs)
                           (length newSongs)
                           (length importedSongs - length newSongs)) sm in
                if answer then
                  alert (AlertImported (length newSongs))
                    (assignFiltered SameArray (import_each newSongs sm))
                else sm
        end
  end.

(** The clearing of the legacy list at the head of [loadInitialData]. *)
Definition clearLegacy : Async B unit :=
  localSongs ← readLegacy ;
  if 0 <? length localSongs then removeItem else resolve tt.

(** The body of the [try] of [loadInitialData], after the wait. *)
Definition loadInitialData_try : Async B (list Song) :=
  clearLegacy ;;
  migrateFromLocalStorage ;;
  loadSongs.

(** [loadInitialData()].  [waitForFirebaseInit] polls the readiness flag,
    which nothing sets after the constructor has run: with the flag unset
    the method never gets past the wait, which is [None] here. *)
Definition loadInitialData sm : option (SongManager B) :=
  if isInitialized (firebaseManager sm) then
    Some
      match loadInitialData_try (firebaseManager sm) with
      | (w, inr l) =>
          assignFiltered SameArray (assignSongs l (setWorld w sm))
      | (w, inl _) =>
          alert AlertLoadError
            (assignFiltered (OwnArray []) (assignSongs [] (setWorld w sm)))
      end
  else None.

(** The state the constructor leaves, around a given world. *)
Definition newSongManager (w : World B) : SongManager B :=
  mkSongManager w [] (OwnArray []) None None None (mkFilterUI [] [] []) [].

(** What the user and the page can make the orchestrator do.  A change of
    the search box or of a check box is followed by [applyFilters()]. *)
Inductive Op :=
  | OpShowModal (song : option Song)
  | OpSubmit (formData : FormData)
  | OpShowDeleteModal (song : Song)
  | OpConfirmDelete
  | OpComment (songId comment : jstring) (inputFound : bool)
  | OpImport (file : option File) (answer : bool) (genId : nat → jstring)
  | OpFilter (ui : FilterUI)
  | OpClearFilters
  | OpLoad.

Definition step (op : Op) sm : SongManager B :=
  match op with
  | OpShowModal song => showModal song sm
  | OpSubmit formData => handleSubmit formData sm
  | OpShowDeleteModal song => showDeleteModal song sm
  | OpConfirmDelete => confirmDelete sm
  | OpComment songId comment inputFound =>
      updateComment songId comment inputFound sm
  | OpImport file answer genId => handleFileImport file answer genId sm
  | OpFilter ui => applyFiltersOn (setPage ui sm)
  | OpClearFilters => clearFilters sm
  | OpLoad => default sm (loadInitialData sm)
  end.

(** The operations of [ops] one after the other, from [sm]: each runs to
    its end before the next starts. *)
Definition run (ops : list Op) sm : SongManager B :=
  foldl (λ sm op, step op sm) sm ops.

End SongManager.

(** ** A scripted in-memory store

    An instance of the backend interface to run the model on: documents
    newest first, identifiers drawn from a counter, a clock that resolves
    the timestamp sentinel, and a script of faults, one entry per call
    ([true]: the call is rejected). *)

Record MemStore := mkMemStore {
  docs : list (jstring * Song);
  nextId : nat;
  faults : list bool
}.

Definition mem_docId (n : nat) : jstring := str "doc" ++ replicate n "+"%char.

Definition mem_fault (m : MemStore) : bool := default false (head (faults m)).

Definition mem_tick (ds : list (jstring * Song)) (m : MemStore) : MemStore :=
  mkMemStore ds (S (nextId m)) (tail (faults m)).

Definition mem_resolve (now : nat) (t : option TimeField) : option TimeField :=
  match t with
  | Some ServerTimestamp => Some (Stamp now)
  | other => other
  end.

Definition mem_stored (now : nat) (data : Song) : Song :=
  mkSong (id data) (artistName data) (songName data) (youtubeLink data)
    (state data) (type data) (comments data)
    (mem_resolve now (createdAt data)) (mem_resolve now (updatedAt data)).

(** The merge of [update]: members present in [data] replace the old. *)
Definition mem_merge (now : nat) (old data : Song) : Song :=
  let pick {A} (new prev : option A) : option A :=
    match new with Some x => Some x | None => prev end in
  mkSong (pick (id data) (id old)) (artistName data) (songName data)
    (youtubeLink data) (state data) (type data)
    (pick (comments data) (comments old))
    (pick (mem_resolve now (createdAt data)) (createdAt old))
    (pick (mem_resolve now (updatedAt data)) (updatedAt old)).

Definition mem_add (data : Song) (m : MemStore) : MemStore * (Fault + jstring) :=
  if mem_fault m then (mem_tick (docs m) m, inl Transport)
  else
    let docId := mem_docId (nextId m) in
    (mem_tick ((docId, mem_stored (nextId m) data) :: docs m) m, inr docId).

Definition mem_get (m : MemStore)
    : MemStore * (Fault + list (jstring * Song)) :=
  if mem_fault m then (mem_tick (docs m) m, inl Transport)
  else (mem_tick (docs m) m, inr (docs m)).

Definition mem_get_ordered (m : MemStore)
    : MemStore * (Fault + list (jstring * Song)) :=
  if mem_fault m then (mem_tick (docs m) m, inl Transport)
  else
    (mem_tick (docs m) m,
     inr (List.filter (λ d, bool_decide (is_Some (createdAt d.2))) (docs m))).

Definition mem_update (docId : jstring) (data : Song) (m : MemStore)
    : MemStore * (Fault + unit) :=
  if mem_fault m then (mem_tick (docs m) m, inl Transport)
  else if bool_decide (docId ∈ (docs m).*1) then
    (mem_tick
       ((λ d, if bool_decide (d.1 = docId)
              then (d.1, mem_merge (nextId m) d.2 data) else d) <$> docs m) m,
     inr tt)
  else (mem_tick (docs m) m, inl NotFound).

Definition mem_delete (docId : jstring) (m : MemStore)
    : MemStore * (Fault + unit) :=
  if mem_fault m then (mem_tick (docs m) m, inl Transport)
  else
    (mem_tick (List.filter (λ d, negb (bool_decide (d.1 = docId))) (docs m)) m,
     inr tt).

Global Instance MemStore_Firestore : Firestore MemStore := {|
  fs_add := mem_add;
  fs_get := mem_get;
  fs_get_ordered := mem_get_ordered;
  fs_update := mem_update;
  fs_delete := mem_delete
|}.

(** A ready adapter on an empty store with the given fault script. *)
Definition mem_world (script : list bool) : World MemStore :=
  mkWorld true (mkMemStore [] 0 script) None [].

(** Sample records to run the model on. *)
Definition draft (artist name : string) (i : option string) : Song :=
  mkSong (str <$> i) (str artist) (str name) [] (str "Aprobado") (str "Lento")
    None None None.

Definition legacy2 : list Song :=
  [draft "Soda Stereo" "Persiana Americana" (Some "17");
   draft "Los Piojos" "Tan Solo" (Some "18")].

Definition form (artist name : string) : FormData :=
  mkFormData (str artist) (str name) [] (str "Aprobado") (str "Lento").



(** A CSV file of three rows in the layout of the export. *)
Definition csv3 : File :=
  mkFile (str "canciones.CSV")
    (Some (join newline
       [str "Nombre,Artista,Estado,Tipo,Comentarios,YouTube";
        str "Persiana Americana,Soda Stereo,Aprobado,Lento,,";
        str "Tan Solo,Los Piojos,Listo,Movido,,";
        str "Flaca,Andres Calamaro,Rechazado,Lento,,"])).

(** ** The filter, in the words of the specification *)

(** [c] is a capital letter of the ASCII alphabet and [d] the small letter
    that goes with it. *)
Definition capitalOf (c d : ascii) : Prop :=
  65 ≤ nat_of_ascii c ∧ nat_of_ascii c ≤ 90
  ∧ nat_of_ascii d = nat_of_ascii c + 32.

(** Two characters are the same, case aside. *)
Definition sameLetter (c d : ascii) : Prop :=
  c = d ∨ capitalOf c d ∨ capitalOf d c.

Global Instance sameLetter_dec c d : Decision (sameLetter c d).
Proof. unfold sameLetter, capitalOf. apply _. Defined.

(** Two texts are equal, case aside: character by character. *)
Definition equalCI (s t : jstring) : Prop := Forall2 sameLetter s t.

(** [t] is a case-insensitive substring of [s]: at some offset of [s] the
    next characters are those of [t], case aside. *)
Definition substringCI (t s : jstring) : Prop :=
  Exists (λ i, equalCI (take (length t) (drop i s)) t) (seq 0 (S (length s))).

Global Instance substringCI_dec t s : Decision (substringCI t s).
Proof. unfold substringCI, equalCI. apply _. Defined.

(** A song matches the query: the search text, the selected types and the
    selected states. *)
Definition Matches (q : FilterUI) (song : Song) : Prop :=
  (searchValue q = []
   ∨ substringCI (searchValue q) (artistName song)
   ∨ substringCI (searchValue q) (songName song)
   ∨ ∃ c, comments song = Some c ∧ substringCI (searchValue q) c)
  ∧ (typeChecked q = [] ∨ type song ∈ typeChecked q)
  ∧ (stateChecked q = [] ∨ state song ∈ stateChecked q).


(** A candidate duplicates a record of the catalog: same artist and same
    song name, compared case-insensitively. *)
Definition Duplicates (existing : list Song) (candidate : Song) : Prop :=
  Exists (λ e, equalCI (artistName e) (artistName candidate)
               ∧ equalCI (songName e) (songName candidate))
    existing.

Global Instance Duplicates_dec existing candidate :
  Decision (Duplicates existing candidate).
Proof. unfold Duplicates, equalCI. apply _. Defined.

(** The members of a song other than [id] and the timestamps. *)
Definition content (song : Song) :=
  (artistName song, songName song, youtubeLink song, state song, type song,
   comments song).

(** ** The view and the mirror *)

(** In [l] a record with identifier [k] stands before an occurrence of
    [x]. *)
Definition After (k : jstring) (x : Song) (l : list Song) : Prop :=
  ∃ i j y, i < j ∧ l !! i = Some y ∧ id y = Some k ∧ l !! j = Some x.

(** The view [F] is coherent with the mirror [S]: its records are records
    of [S], and a record that comes second under its identifier in [F]
    comes second under it in [S] too. *)
Definition Coherent (S F : list Song) : Prop :=
  F ⊆ S ∧ ∀ k x, id x = Some k → After k x F → After k x S.

Section View.
Context {B : Type} `{!Firestore B}.

(** [filteredSongs] is the filter of [songs] under the query of the page. *)
Definition Recomputed (sm : SongManager B) : Prop :=
  shown sm = applyFilters (page sm) (songs sm).

(** Neither list changed from [sm] to [sm']. *)
Definition Untouched (sm sm' : SongManager B) : Prop :=
  songs sm' = songs sm ∧ filteredSongs sm' = filteredSongs sm.

(** [filteredSongs] is the array of [songs], or has the same elements. *)
Definition ShowsAll (sm : SongManager B) : Prop :=
  shown sm = songs sm.

(** From [sm] to [sm'] the first record with identifier [songId] was
    replaced by [u], in [songs] and, where the view has one, in
    [filteredSongs]. *)
Definition Patched (songId : jstring) (u : Song) (sm sm' : SongManager B)
    : Prop :=
  is_Some (findIndexById (Some songId) (songs sm))
  ∧ songs sm' = setAt (findIndexById (Some songId) (songs sm)) u (songs sm)
  ∧ shown sm' = setAt (findIndexById (Some songId) (shown sm)) u (shown sm).

End View.

(** ** The CSV round trip *)

(** A field without its double quotes: what [parseCSVLine] keeps of it. *)
Definition unquote (s : jstring) : jstring :=
  List.filter (λ c, negb (bool_decide (c = dquote))) s.

(** [f] applied to the first, or to the last, element of a list. *)
Definition map_first {A} (f : A → A) (l : list A) : list A :=
  match l with
  | [] => []
  | x :: l' => f x :: l'
  end.



(** The six fields of the row of a song, in the order of the export. *)
Definition rowFields (song : Song) : list jstring :=
  [songName song; artistName song; state song; type song;
   orEmpty (comments song); youtubeLink song].

(** The four members the round trip is about. *)
Definition key (song : Song) :=
  (artistName song, songName song, state song, type song).


(** The blanks that [String.prototype.trim] strips besides the six of
    ASCII, in UTF-8: U+00A0, U+1680, U+2000 to U+200A, U+2028, U+2029,
    U+202F, U+205F, U+3000 and U+FEFF. *)
Definition wideBlanks : list jstring :=
  (λ codes : list nat, ascii_of_nat <$> codes) <$>
    ([[194; 160]; [225; 154; 128]]
     ++ ((λ n : nat, [226; 128; n]) <$> seq 128 11)
     ++ [[226; 128; 168]; [226; 128; 169]; [226; 128; 175];
         [226; 129; 159]; [227; 128; 128]; [239; 187; 191]]).

(** A text that holds none of them: on such a text, and on its parts,
    [trim] here is that of JavaScript. *)
Definition PlainBlanks (s : jstring) : Prop :=
  Forall (λ blank, includes s blank = false) wideBlanks.





(** ** Names that a JavaScript object inherits *)

(** The members of [Object.prototype]: looked up in an object literal used
    as a table ([stateMap], [typeMap], the counters of [getStats]) they are
    found although the table does not list them. *)
Definition objectPrototypeKeys : list jstring :=
  [str "constructor"; str "__defineGetter__"; str "__defineSetter__";
   str "hasOwnProperty"; str "__lookupGetter__"; str "__lookupSetter__";
   str "isPrototypeOf"; str "propertyIsEnumerable"; str "toString";
   str "valueOf"; str "__proto__"; str "toLocaleString"].

(** The header the importer documents for its original layout. *)
Definition originalHeader : jstring := str "Nombre,Artista,Género,Estado,Tipo".


(** ** What operations keep *)

(** An asynchronous method that leaves the readiness flag and the local
    storage as they are and only adds to the trace of calls. *)
Definition KeepsLocal {B A} (m : Async B A) : Prop :=
  ∀ w, isInitialized (m w).1 = isInitialized w
       ∧ localStorage (m w).1 = localStorage w
       ∧ calls w `prefix_of` calls (m w).1.

(** Every record carries an identifier. *)
Definition HasIds (l : list Song) : Prop := Forall (λ song, is_Some (id song)) l.

(** A song, its comments set aside. *)
Definition withoutComments (song : Song) : Song :=
  mkSong (id song) (artistName song) (songName song) (youtubeLink song)
    (state song) (type song) None (createdAt song) (updatedAt song).

(** The candidates of a bulk import: the drafts of the file that the
    catalog does not hold yet; none when there is no file or no text. *)
Definition candidates {B} (file : option File) (genId : nat → jstring)
    (sm : SongManager B) : list Song :=
  match file with
  | Some f =>
      match file_text f with
      | Some csvText => newSongs (parseCSV genId csvText) (songs sm)
      | None => []
      end
  | None => []
  end.


(** ** Artist suggestions *)

(** A text of ASCII characters only: on these [toLowerCase] and [length]
    here are those of JavaScript. *)
Definition Ascii7 (s : jstring) : Prop := Forall (λ c, nat_of_ascii c < 128) s.



(** [[...new Set(arr)]]: the elements of [arr], each once, in the order of
    their first occurrence. *)
Definition arrayOfSet (arr : list jstring) : list jstring :=
  foldl (λ seen x, if bool_decide (x ∈ seen) then seen else seen ++ [x]) [] arr.

Section Suggestions.
Context {B : Type}.
Implicit Types sm : SongManager B.

Definition setCachedArtists (c : option (list jstring)) sm : SongManager B :=
  mkSongManager (firebaseManager sm) (songs sm) (filteredSongs sm)
    (currentEditId sm) (songToDelete sm) c (page sm) (alerts sm).

(** [handleArtistInput(e)] for [e.target.value = input]: the orchestrator
    with its cache of artists, and the suggestions shown, [None] when the
    list of suggestions is hidden. *)
Definition handleArtistInput (input : jstring) sm
    : SongManager B * option (list jstring) :=
  if length input <? 2 then (sm, None)
  else
    let sm :=
      match cachedArtists sm with
      | None => setCachedArtists (Some (arrayOfSet (artistName <$> songs sm))) sm
      | Some _ => sm
      end in
    let filteredArtists :=
      List.filter (λ artist, includes (toLowerCase artist) (toLowerCase input))
        (default [] (cachedArtists sm)) in
    if 0 <? length filteredArtists then (sm, Some filteredArtists)
    else (sm, None).

End Suggestions.

(** The operations after which the orchestrator drops its cache of
    artists. *)
Definition invalidates (op : Op) : bool :=
  match op with
  | OpSubmit _ | OpConfirmDelete => true
  | _ => false
  end.

(** ** StorageManager *)

(** The item ['songs'] of the local storage: absent, the JSON of a list of
    songs as [saveSongs] writes it, or a text that [JSON.parse] rejects.
    (A text that parses to something other than an array is not covered:
    the methods below then fail on the value they get.) *)
Inductive StoredItem :=
  | ItemAbsent
  | ItemSongs (l : list Song)
  | ItemGarbled.

(** What [exportData] returns, the date of the export aside. *)
Record Backup := mkBackup {
  backup_songs : list Song;
  backup_version : jstring
}.

(** What [getStats] returns: the number of songs and, by state, by type
    and by artist, a table of counters. *)
Record Stats := mkStats {
  total : nat;
  byState : gmap jstring nat;
  byType : gmap jstring nat;
  byArtist : gmap jstring nat
}.

(** [table[key] = (table[key] || 0) + 1], for a key that the table does
    not inherit. *)
Definition countKey (key : jstring) (table : gmap jstring nat)
    : gmap jstring nat :=
  <[key := default 0 (table !! key) + 1]> table.

Module StorageManager.
Section Store.

(** Whether [localStorage.setItem] accepts the JSON of a list, or throws
    for want of room. *)
Variable fits : list Song → bool.

Definition loadSongs (st : StoredItem) : list Song :=
  match st with
  | ItemSongs l => l
  | ItemAbsent | ItemGarbled => []
  end.

Definition saveSongs (songs : list Song) (st : StoredItem) : StoredItem * bool :=
  if fits songs then (ItemSongs songs, true) else (st, false).

(** [addSong(song)]; [newId] is what [generateUniqueId()] returns. *)
Definition addSong (song : Song) (newId : jstring) (st : StoredItem)
    : StoredItem * option Song :=
  let songs := loadSongs st in
  let newSong := withId song newId in
  let songs := songs ++ [newSong] in
  match saveSongs songs st with
  | (st', true) => (st', Some newSong)
  | (st', false) => (st', None)
  end.

Definition updateSong (songId : jstring) (updatedSong : Song) (st : StoredItem)
    : StoredItem * option Song :=
  let songs := loadSongs st in
  match findIndexById (Some songId) songs with
  | Some index =>
      let songs := <[index := withId updatedSong songId]> songs in
      match saveSongs songs st with
      | (st', true) => (st', songs !! index)
      | (st', false) => (st', None)
      end
  | None => (st, None)
  end.

Definition deleteSong (songId : jstring) (st : StoredItem) : StoredItem * bool :=
  let songs := loadSongs st in
  let filteredSongs :=
    List.filter (λ song, negb (bool_decide (id song = Some songId))) songs in
  saveSongs filteredSongs st.

Definition getSongById (songId : jstring) (st : StoredItem) : option Song :=
  snd <$> list_find (λ song, id song = Some songId) (loadSongs st).

Definition clearAll (st : StoredItem) : StoredItem * bool := (ItemAbsent, true).

Definition exportData (st : StoredItem) : Backup :=
  mkBackup (loadSongs st) (str "1.0").

(** [importData(data)]; [data] is [None] when it is missing or holds no
    array of songs. *)
Definition importData (data : option Backup) (st : StoredItem) : StoredItem * bool :=
  match data with
  | Some d => saveSongs (backup_songs d) st
  | None => (st, false)
  end.

Definition hasData (st : StoredItem) : bool := 0 <? length (loadSongs st).

(** [regenerateAllIds()]; [genId i] is the identifier drawn for the song
    at index [i]. *)
Definition regenerateAllIds (genId : nat → jstring) (st : StoredItem)
    : StoredItem * option (list Song) :=
  let songs := loadSongs st in
  let updatedSongs := imap (λ i song, withId song (genId i)) songs in
  match saveSongs updatedSongs st with
  | (st', true) => (st', Some updatedSongs)
  | (st', false) => (st', None)
  end.

Definition getStats (st : StoredItem) : Stats :=
  let songs := loadSongs st in
  foldl (λ stats song,
           mkStats (total stats)
             (countKey (state song) (byState stats))
             (countKey (type song) (byType stats))
             (countKey (artistName song) (byArtist stats)))
    (mkStats (length songs) ∅ ∅ ∅) songs.

End Store.
End StorageManager.

(** The keys under which [getStats] counts a song. *)
Definition statKeys (song : Song) : list jstring :=
  [state song; type song; artistName song].

(** The sum of the counters of a table. *)
Definition sumOfCounters (table : gmap jstring nat) : nat :=
  map_fold (λ _ n acc, n + acc) 0 table.

(** ** PDFGenerator.wrapText *)

Definition space : ascii := ascii_of_nat 32.

Module PDFGenerator.
Section Wrap.

(** [doc.getTextWidth(line) > maxWidth], for the font the document has when
    [wrapText] runs. *)
Variable tooWide : jstring → bool.

(** The callback of the [forEach] over the words, on the lines pushed so
    far and the current line. *)
Definition wrapWord (acc : list jstring * jstring) (word : jstring)
    : list jstring * jstring :=
  let '(lines, currentLine) := acc in
  let testLine :=
    currentLine ++ (if truthy currentLine then [space] else []) ++ word in
  if tooWide testLine && truthy currentLine
  then (lines ++ [currentLine], word)
  else (lines, testLine).

Definition wrapText (text : jstring) : list jstring :=
  let words := split space text in
  let '(lines, currentLine) := foldl wrapWord ([], []) words in
  if truthy currentLine then lines ++ [currentLine] else lines.

End Wrap.
End PDFGenerator.

(** ** Theorems *)

(** A decidable statement about closed terms, by evaluation. *)
Ltac decide_by_compute :=
  apply (bool_decide_unpack _); vm_compute; exact I.

(** *** The line parser *)

Lemma parseCSVLine_loop_no_quote line : ∀ result current inQuotes,
  Forall (λ f, dquote ∉ f) result → dquote ∉ current →
  Forall (λ f, dquote ∉ f) (parseCSVLine_loop line result current inQuotes).
Proof.
  induction line as [|char rest IH]; intros result current inQuotes Hres Hcur; simpl.
  - apply Forall_app; split; [done|]. by constructor.
  - case_bool_decide as Hq; [by apply IH|].
    destruct (bool_decide (char = comma) && negb inQuotes).
    + apply IH; [|by apply not_elem_of_nil].
      apply Forall_app; split; [done|]. by constructor.
    + apply IH; [done|]. rewrite elem_of_app, list_elem_of_singleton. by intros [?|?].
Qed.

(** C10: no field returned by [parseCSVLine] contains a double quote; in
    particular the doubled quote of an escaped field is not restored. *)
Theorem parseCSVLine_fields_have_no_quote :
  (∀ line : jstring, Forall (λ f, dquote ∉ f) (parseCSVLine line)) ∧
  parseCSVLine ([dquote] ++ str "a" ++ [dquote; dquote] ++ str "b" ++ [dquote])
    = [str "ab"].
Proof.
  split; [|reflexivity].
  intros line. apply parseCSVLine_loop_no_quote; [constructor|apply not_elem_of_nil].
Qed.


(** A comma inside quotes is kept as text: the quoted row of six fields. *)
Example parseCSVLine_quoted_row :
  parseCSVLine
    ([dquote] ++ str "Smith, John" ++ [dquote]
     ++ str ",Song One,Approved,Slow,"
     ++ [dquote] ++ str "Great, isn't it" ++ [dquote] ++ str ",http://x")
  = [str "Smith, John"; str "Song One"; str "Approved"; str "Slow";
     str "Great, isn't it"; str "http://x"].
Proof. reflexivity. Qed.

(** *** Strings *)

Lemma startsWith_spec s : ∀ t, startsWith s t = true ↔ ∃ suf, s = t ++ suf.
Proof.
  induction s as [|d s IH]; intros [|c t]; simpl.
  - split; [by exists []|done].
  - split; [done|]. by intros [suf ?].
  - split; [by exists (d :: s)|done].
  - rewrite andb_true_iff, bool_decide_eq_true, IH. split.
    + intros [-> [suf ->]]. by exists suf.
    + intros [suf [= -> ->]]. eauto.
Qed.

Lemma includes_spec s t : includes s t = true ↔ ∃ pre suf, s = pre ++ t ++ suf.
Proof.
  induction s as [|d s IH]; cbn [includes]; rewrite orb_true_iff, startsWith_spec.
  - split.
    + intros [[suf ->]|?]; [|done]. by exists [], suf.
    + intros (pre & suf & H). left. exists suf.
      destruct pre; [done|discriminate].
  - rewrite IH. split.
    + intros [[suf ->]|(pre & suf & ->)]; [by exists [], suf|by exists (d :: pre), suf].
    + intros ([|c pre] & suf & H); simpl in H.
      * left. by exists suf.
      * injection H as -> ->. right. by exists pre, suf.
Qed.

Lemma truthy_false s : truthy s = false ↔ s = [].
Proof. unfold truthy. rewrite negb_false_iff. apply bool_decide_eq_true. Qed.

Lemma truthy_true s : truthy s = true ↔ s ≠ [].
Proof. unfold truthy. rewrite negb_true_iff. apply bool_decide_eq_false. Qed.

Lemma toLowerCase_nil s : toLowerCase s = [] ↔ s = [].
Proof. split; [apply fmap_nil_inv|by intros ->]. Qed.

Lemma length_zero {A} (l : list A) : (length l =? 0) = true ↔ l = [].
Proof. rewrite Nat.eqb_eq. apply length_zero_iff_nil. Qed.

(** [Array.prototype.filter] with a callback that decides [P]. *)
Lemma List_filter_decide {A} (f : A → bool) (P : A → Prop)
    `{∀ x, Decision (P x)} (l : list A) :
  (∀ x, f x = true ↔ P x) → List.filter f l = filter P l.
Proof.
  intros Hf. induction l as [|x l IH]; [done|]. simpl.
  rewrite filter_cons, IH. destruct (decide (P x)) as [HP|HP].
  - apply Hf in HP. by rewrite HP.
  - destruct (f x) eqn:E; [|done]. by apply Hf in E.
Qed.

(** *** Case aside *)

Lemma lower_char_code (c : ascii) :
  nat_of_ascii (lower_char c)
  = if (65 <=? nat_of_ascii c) && (nat_of_ascii c <=? 90)
    then nat_of_ascii c + 32 else nat_of_ascii c.
Proof.
  unfold lower_char. destruct (_ && _) eqn:E; [|done].
  apply andb_true_iff in E as [_ E%Nat.leb_le].
  apply nat_ascii_embedding. lia.
Qed.

Lemma ascii_code_inj (c d : ascii) : nat_of_ascii c = nat_of_ascii d → c = d.
Proof.
  intros H. rewrite <- (ascii_nat_embedding c), <- (ascii_nat_embedding d).
  by rewrite H.
Qed.

(** The characters that [toLowerCase] maps to the same one are those that
    are the same, case aside. *)
Lemma sameLetter_lower (c d : ascii) :
  sameLetter c d ↔ lower_char c = lower_char d.
Proof.
  unfold sameLetter, capitalOf. split.
  - intros H. apply ascii_code_inj. rewrite !lower_char_code.
    destruct H as [->|[(H1 & H2 & H3)|(H1 & H2 & H3)]]; [done|..];
      repeat match goal with
             | |- context [?a <=? ?b] => destruct (Nat.leb_spec a b)
             end; simpl; lia.
  - intros H. apply (f_equal nat_of_ascii) in H. rewrite !lower_char_code in H.
    destruct (decide (nat_of_ascii c = nat_of_ascii d)) as [E|E];
      [left; by apply ascii_code_inj|right].
    repeat match goal with
           | H : context [?a <=? ?b] |- _ => destruct (Nat.leb_spec a b)
           end; simpl in H; lia.
Qed.

Lemma equalCI_lower (s t : jstring) :
  equalCI s t ↔ toLowerCase s = toLowerCase t.
Proof.
  unfold equalCI, toLowerCase. revert t.
  induction s as [|c s IH]; intros [|d t]; rewrite ?fmap_cons, ?fmap_nil.
  - split; [done|constructor].
  - split; [by inversion 1|done].
  - split; [by inversion 1|done].
  - rewrite Forall2_cons, sameLetter_lower, IH. split.
    + by intros [-> ->].
    + by intros [= -> ->].
Qed.

Lemma substringCI_lower (t s : jstring) :
  substringCI t s ↔ ∃ pre suf, toLowerCase s = pre ++ toLowerCase t ++ suf.
Proof.
  unfold substringCI. rewrite Exists_exists. split.
  - intros (i & _ & Hi). apply equalCI_lower in Hi.
    exists (toLowerCase (take i s)),
      (toLowerCase (drop (length t) (drop i s))).
    rewrite <- Hi. unfold toLowerCase. rewrite <- !fmap_app.
    by rewrite !take_drop.
  - intros (pre & suf & H). exists (length pre). unfold toLowerCase in H.
    assert (length s = length pre + (length t + length suf)) as Hlen.
    { apply (f_equal length) in H.
      by rewrite !length_app, !length_fmap in H. }
    split; [apply elem_of_seq; lia|].
    apply equalCI_lower. unfold toLowerCase in *.
    rewrite fmap_take, fmap_drop, H, drop_app_length.
    rewrite <- (length_fmap lower_char t). by rewrite take_app_length.
Qed.

(** *** The filter *)

Lemma comments_match_spec (song : Song) (t : jstring) :
  match comments song with
  | Some c => truthy c && includes (toLowerCase c) (toLowerCase t)
  | None => false
  end = true
  ↔ ∃ c, comments song = Some c ∧ c ≠ [] ∧ substringCI t c.
Proof.
  destruct (comments song) as [c|].
  - rewrite andb_true_iff, truthy_true, includes_spec, <- substringCI_lower.
    split.
    + intros [? ?]. by exists c.
    + by intros (? & [= <-] & ? & ?).
  - split; [done|]. by intros (? & ? & _).
Qed.

Lemma substringCI_empty (t : jstring) : substringCI t [] → t = [].
Proof.
  intros (pre & suf & H)%substringCI_lower. symmetry in H.
  apply app_eq_nil in H as [_ H]. apply app_eq_nil in H as [H _].
  by apply toLowerCase_nil.
Qed.

Lemma applyFilters_keep_spec q song :
  applyFilters_keep (toLowerCase (searchValue q)) (typeChecked q)
    (stateChecked q) song = true ↔ Matches q song.
Proof.
  unfold applyFilters_keep, Matches.
  rewrite !andb_true_iff, !orb_true_iff, negb_true_iff, truthy_false,
    toLowerCase_nil, !includes_spec, !length_zero, !bool_decide_eq_true,
    comments_match_spec, <- !substringCI_lower.
  split.
  - intros [[Hs Ht] Hst]. split_and!; [|done..].
    destruct Hs as [[[?|?]|?]|(c & ? & _ & ?)]; eauto 6.
  - intros (Hs & Ht & Hst). split_and!; [|done..].
    destruct Hs as [?|[?|[?|(c & Hc & Hsub)]]]; eauto.
    destruct (decide (c = [])) as [->|Hne].
    + apply substringCI_empty in Hsub. eauto.
    + right. eauto.
Qed.




(** *** Blanks *)











(** *** The line parser on escaped fields *)

(** A character that is neither a separator nor a quote joins the current
    field, inside quotes or not. *)
Lemma loop_plain ws : ∀ l res cur q,
  Forall (λ c, c ≠ comma ∧ c ≠ dquote) ws →
  parseCSVLine_loop (ws ++ l) res cur q = parseCSVLine_loop l res (cur ++ ws) q.
Proof.
  induction ws as [|c ws IH]; intros l res cur q Hws; simpl.
  - by rewrite app_nil_r.
  - inversion_clear Hws as [|? ? [Hc Hq] Hws'].
    rewrite !bool_decide_eq_false_2 by done. simpl.
    rewrite IH by done. by rewrite <- app_assoc.
Qed.





Lemma loop_in_quotes f : ∀ l res cur,
  parseCSVLine_loop (doubleQuotes f ++ l) res cur true
  = parseCSVLine_loop l res (cur ++ unquote f) true.
Proof.
  induction f as [|c f IH]; intros l res cur; simpl.
  - by rewrite app_nil_r.
  - case_bool_decide as Hc; simpl.
    + subst c. rewrite ?bool_decide_eq_true_2 by done. simpl. apply IH.
    + rewrite ?bool_decide_eq_false_2 by done. rewrite ?andb_false_r.
      fold (doubleQuotes f). rewrite IH. by rewrite <- app_assoc.
Qed.

Lemma unquote_plain f : dquote ∉ f → unquote f = f.
Proof.
  induction f as [|c f IH]; [done|]. intros [Hc Hf]%not_elem_of_cons. simpl.
  rewrite bool_decide_eq_false_2 by congruence. simpl. by rewrite IH.
Qed.

(** An escaped field is read back without its quotes and leaves the parser
    outside quotes. *)
Lemma loop_escape f l res cur :
  parseCSVLine_loop (escapeCSVField (Some f) ++ l) res cur false
  = parseCSVLine_loop l res (cur ++ unquote f) false.
Proof.
  unfold escapeCSVField.
  destruct (bool_decide (comma ∈ f)) eqn:Hcomma; simpl.
  2: destruct (bool_decide (dquote ∈ f)) eqn:Hquote; simpl.
  3: destruct (bool_decide (newline ∈ f)) eqn:Hnl; simpl.
  1-3: rewrite <- app_assoc, loop_in_quotes; by simpl.
  apply bool_decide_eq_false in Hcomma, Hquote.
  rewrite loop_plain, unquote_plain; [done..|].
  apply Forall_forall. intros c Hc. split; by intros ->.
Qed.

(** A row of escaped fields is read back as the fields without their
    quotes. *)
Lemma loop_row f fs : ∀ res cur,
  parseCSVLine_loop (join comma (escapeCSVField ∘ Some <$> f :: fs)) res cur false
  = res ++ (cur ++ unquote f) :: (unquote <$> fs).
Proof.
  revert f. induction fs as [|g fs IH]; intros f res cur.
  - change (join comma (escapeCSVField ∘ Some <$> [f]))
      with (escapeCSVField (Some f)).
    rewrite <- (app_nil_r (escapeCSVField _)), loop_escape. done.
  - change (join comma (escapeCSVField ∘ Some <$> f :: g :: fs))
      with (escapeCSVField (Some f)
            ++ comma :: join comma (escapeCSVField ∘ Some <$> g :: fs)).
    rewrite loop_escape. cbn [parseCSVLine_loop].
    rewrite bool_decide_eq_false_2 by done.
    rewrite bool_decide_eq_true_2 by done. cbn [andb negb].
    rewrite IH. by rewrite <- app_assoc.
Qed.

(** *** Trimming the line before parsing it *)






(** *** Lines *)

Lemma split_nonempty sep s : split sep s ≠ [].
Proof. destruct s as [|c s]; simpl; [done|]. repeat case_match; done. Qed.


Lemma split_app sep s t :
  sep ∉ s → split sep (s ++ sep :: t) = s :: split sep t.
Proof.
  induction s as [|c s IH]; simpl.
  - intros _. by rewrite decide_True.
  - intros [Hc Hs]%not_elem_of_cons. rewrite decide_False by congruence.
    by rewrite IH.
Qed.




(** *** Export, then import *)



Lemma parseCSVLine_csvRow song :
  parseCSVLine (csvRow song) = unquote <$> rowFields song.
Proof.
  change (csvRow song)
    with (join comma (escapeCSVField ∘ Some <$> rowFields song)).
  unfold parseCSVLine, rowFields. by rewrite loop_row.
Qed.











(** *** The duplicate filter *)

Lemma existsb_Exists {A} (f : A → bool) (P : A → Prop) (l : list A) :
  (∀ x, f x = true ↔ P x) → existsb f l = true ↔ Exists P l.
Proof.
  intros Hf. rewrite existsb_exists, Exists_exists.
  split; intros (x & Hin & Hx); exists x; split; try by apply Hf.
  - by apply list_elem_of_In.
  - by apply list_elem_of_In.
Qed.

Lemma newSongs_keep_spec (existing : list Song) (c : Song) :
  negb (existsb (λ e,
    bool_decide (toLowerCase (artistName e) = toLowerCase (artistName c))
    && bool_decide (toLowerCase (songName e) = toLowerCase (songName c)))
    existing) = true
  ↔ ¬ Duplicates existing c.
Proof.
  rewrite negb_true_iff, <- not_true_iff_false. unfold Duplicates.
  apply not_iff_compat, existsb_Exists. intros e.
  by rewrite andb_true_iff, !bool_decide_eq_true, !equalCI_lower.
Qed.



(** *** The adapter *)

Section FirebaseManager_facts.
Context {B : Type} `{!Firestore B}.
Implicit Types w : World B.

Lemma bind_run {A C} (m : Async B A) (k : A → Async B C) w :
  (m ≫= k) w
  = match m w with
    | (w', inr a) => k a w'
    | (w', inl e) => (w', inl e)
    end.
Proof. reflexivity. Qed.

Lemma requireInitialized_ready {A} (k : Async B A) w :
  isInitialized w = true → (requireInitialized ;; k) w = k w.
Proof.
  intros H. unfold mbind, Async_bind, await, requireInitialized. by rewrite H.
Qed.

Lemma requireInitialized_unready {A} (k : Async B A) w :
  isInitialized w = false →
  (requireInitialized ;; k) w = (w, inl StoreUnavailable).
Proof.
  intros H. unfold mbind, Async_bind, await, requireInitialized. by rewrite H.
Qed.

(** An update or a deletion that resolves, resolves to [true]. *)
Lemma updateSong_accepts (songId : option jstring) (u : Song) w (b : bool) :
  (updateSong songId u w).2 = inr b → b = true.
Proof.
  unfold updateSong, mbind, Async_bind, await, requireInitialized, onDoc,
    call, reject, resolve.
  destruct (isInitialized w); [|done].
  destruct songId as [i|]; [|done].
  destruct (fs_update _ _ _) as [b' [f|[]]]; simpl; congruence.
Qed.


(** C3: with the readiness flag unset every operation of the adapter
    rejects with [StoreUnavailable] and leaves the world as it was: the
    backend untouched, no call in the trace. *)
Theorem unready_adapter_rejects w (song : Song) (songId : option jstring)
    (l : list Song) :
  isInitialized w = false →
  loadSongs w = (w, inl StoreUnavailable)
  ∧ addSong song w = (w, inl StoreUnavailable)
  ∧ updateSong songId song w = (w, inl StoreUnavailable)
  ∧ deleteSong songId w = (w, inl StoreUnavailable)
  ∧ migrateFromLocalStorage w = (w, inl StoreUnavailable)
  ∧ saveSongs l w = (w, inl StoreUnavailable).
Proof.
  intros H. split_and!; by apply requireInitialized_unready.
Qed.

(** C2: a ready adapter creating a draft makes one backend call, an
    [add] of the draft without its [id] and with both timestamps set to
    the server sentinel; when the call succeeds the value returned is the
    draft with the [id] the store assigned, whatever [id] it had. *)
Theorem addSong_strips_client_id w (song : Song) :
  isInitialized w = true →
  ∃ data,
    calls (addSong song w).1 = calls w ++ [CallAdd data]
    ∧ db (addSong song w).1 = (fs_add data (db w)).1
    ∧ id data = None
    ∧ createdAt data = Some ServerTimestamp
    ∧ updatedAt data = Some ServerTimestamp
    ∧ content data = content song
    ∧ match (fs_add data (db w)).2 with
      | inr docId =>
          ∃ added, (addSong song w).2 = inr added
                   ∧ id added = Some docId
                   ∧ withoutId added = withoutId song
      | inl f => (addSong song w).2 = inl (RemoteError f)
      end.
Proof.
  intros H. exists (songData song). unfold addSong.
  rewrite requireInitialized_ready by done.
  unfold mbind, Async_bind, await, call, resolve.
  destruct (fs_add (songData song) (db w)) as [b [f|docId]]; simpl;
    split_and!; try done.
  by eexists.
Qed.

Lemma migrate_each_run (l : list Song) : ∀ w,
  migrate_each l w
  = (mkWorld (isInitialized w)
       (foldl (λ b song, (fs_add (songData song) b).1) (db w) l)
       (localStorage w)
       (calls w ++ (CallAdd ∘ songData <$> l)),
     inr tt).
Proof.
  induction l as [|song l IH]; intros w; simpl.
  - unfold resolve. rewrite app_nil_r. by destruct w.
  - unfold mbind, Async_bind, await, tryLog, call.
    destruct (fs_add (songData song) (db w)) as [b r] eqn:E; simpl.
    rewrite IH; simpl. by rewrite <- app_assoc.
Qed.

Lemma migrate_nothing_to_do w :
  isInitialized w = true → legacyList w = [] →
  migrateFromLocalStorage w = (w, inr tt).
Proof.
  intros H Hempty. unfold migrateFromLocalStorage.
  rewrite requireInitialized_ready by done.
  rewrite bind_run. unfold readLegacy. cbv beta iota. by rewrite Hempty.
Qed.

(** C8: the migration of a ready adapter does nothing when the legacy
    list is empty; with a legacy list it reads the remote collection
    once and, when that holds at least as many documents as the legacy
    list has records, stops there; otherwise it issues one [add] per
    legacy record, in order, each without its local [id], whether or not
    earlier ones failed, and resolves. *)
Theorem migrateFromLocalStorage_heuristic w :
  isInitialized w = true →
  (legacyList w = [] → migrateFromLocalStorage w = (w, inr tt))
  ∧ (legacyList w ≠ [] →
     ∀ b snapshot, fs_get (db w) = (b, inr snapshot) →
       (length (legacyList w) ≤ length snapshot →
        migrateFromLocalStorage w
        = (mkWorld (isInitialized w) b (localStorage w)
             (calls w ++ [CallGet]), inr tt))
       ∧ (length snapshot < length (legacyList w) →
          migrateFromLocalStorage w
          = (mkWorld (isInitialized w)
               (foldl (λ b song, (fs_add (songData song) b).1) b
                  (legacyList w))
               (localStorage w)
               (calls w ++ [CallGet]
                ++ (CallAdd ∘ songData <$> legacyList w)),
             inr tt)
          ∧ Forall (λ song, id (songData song) = None) (legacyList w))).
Proof.
  intros H. split; [by apply migrate_nothing_to_do|].
  unfold migrateFromLocalStorage.
  rewrite requireInitialized_ready by done.
  rewrite bind_run. unfold readLegacy. cbv beta iota.
  intros Hne. assert ((length (legacyList w) =? 0) = false) as ->.
  { apply Nat.eqb_neq. by destruct (legacyList w). }
  intros b snapshot Hget.
  rewrite bind_run. unfold call. rewrite Hget. split.
  - intros Hle. apply Nat.ltb_ge in Hle. by rewrite Hle.
  - intros Hlt. pose proof Hlt as Hlt'. apply Nat.ltb_lt in Hlt'.
    rewrite Hlt'. rewrite migrate_each_run. simpl.
    rewrite <- app_assoc. split; [done|].
    by apply Forall_forall.
Qed.

End FirebaseManager_facts.

Lemma unready_adapter_rejects_witness :
  let w := mkWorld false (mkMemStore [] 0 []) (Some legacy2) [] in
  let song := draft "Soda Stereo" "Persiana Americana" (Some "17") in
  isInitialized w = false
  ∧ (loadSongs w = (w, inl StoreUnavailable)
     ∧ addSong song w = (w, inl StoreUnavailable)
     ∧ updateSong (Some (str "17")) song w = (w, inl StoreUnavailable)
     ∧ deleteSong (Some (str "17")) w = (w, inl StoreUnavailable)
     ∧ migrateFromLocalStorage w = (w, inl StoreUnavailable)
     ∧ saveSongs [song] w = (w, inl StoreUnavailable)).
Proof.
  intros w song. split; [reflexivity|].
  apply (unready_adapter_rejects w song (Some (str "17")) [song]). reflexivity.
Defined.

Lemma addSong_strips_client_id_witness :
  let w := mem_world [] in
  let song := draft "Soda Stereo" "Persiana Americana" (Some "17") in
  isInitialized w = true
  ∧ ∃ data,
      calls (addSong song w).1 = calls w ++ [CallAdd data]
      ∧ db (addSong song w).1 = (fs_add data (db w)).1
      ∧ id data = None
      ∧ createdAt data = Some ServerTimestamp
      ∧ updatedAt data = Some ServerTimestamp
      ∧ content data = content song
      ∧ match (fs_add data (db w)).2 with
        | inr docId =>
            ∃ added, (addSong song w).2 = inr added
                     ∧ id added = Some docId
                     ∧ withoutId added = withoutId song
        | inl f => (addSong song w).2 = inl (RemoteError f)
        end.
Proof.
  intros w song. split; [reflexivity|].
  apply (addSong_strips_client_id w song). reflexivity.
Defined.

(** The document the in-memory store holds after the creation of a draft
    that came with the identifier 17. *)
Example addSong_persisted_document :
  docs (db (addSong (draft "Soda Stereo" "Persiana Americana" (Some "17"))
              (mem_world [])).1)
  = [(str "doc",
      mkSong None (str "Soda Stereo") (str "Persiana Americana") []
        (str "Aprobado") (str "Lento") None (Some (Stamp 0)) (Some (Stamp 0)))].
Proof. reflexivity. Qed.

Lemma migrateFromLocalStorage_heuristic_witness :
  let w := mkWorld true (mkMemStore [] 0 [false; true]) (Some legacy2) [] in
  isInitialized w = true
  ∧ legacyList w ≠ []
  ∧ fs_get (db w) = (mkMemStore [] 1 [true], inr [])
  ∧ length (@nil (jstring * Song)) < length (legacyList w)
  ∧ migrateFromLocalStorage w
    = (mkWorld true
         (mkMemStore
            [(str "doc++",
              mkSong None (str "Los Piojos") (str "Tan Solo") []
                (str "Aprobado") (str "Lento") None (Some (Stamp 2))
                (Some (Stamp 2)))] 3 [])
         (Some legacy2)
         [CallGet;
          CallAdd (songData (draft "Soda Stereo" "Persiana Americana" None));
          CallAdd (songData (draft "Los Piojos" "Tan Solo" None))],
       inr tt).
Proof.
  intros w.
  assert (isInitialized w = true) as Hready by reflexivity.
  assert (legacyList w ≠ []) as Hne by discriminate.
  assert (fs_get (db w) = (mkMemStore [] 1 [true], inr [])) as Hget
    by reflexivity.
  assert (length (@nil (jstring * Song)) < length (legacyList w)) as Hlt
    by (vm_compute; lia).
  split_and!; try assumption.
  destruct (migrateFromLocalStorage_heuristic w Hready) as [_ Hmig].
  destruct (Hmig Hne _ _ Hget) as [_ Hrun].
  destruct (Hrun Hlt) as [-> _]. reflexivity.
Defined.

(** *** Coherence of a view with the mirror *)

Lemma After_skip k x a l : After k x l → After k x (a :: l).
Proof.
  intros (i & j & y & Hij & Hi & Hy & Hj).
  exists (S i), (S j), y. split_and!; [lia|done..].
Qed.

Lemma After_head k x a l : id a = Some k → x ∈ l → After k x (a :: l).
Proof.
  intros Ha (j & Hj)%list_elem_of_lookup.
  exists 0, (S j), a. split_and!; [lia|done..].
Qed.

Lemma After_cons_inv k x a l :
  After k x (a :: l) → (id a = Some k ∧ x ∈ l) ∨ After k x l.
Proof.
  intros (i & j & y & Hij & Hi & Hy & Hj).
  destruct j as [|j]; [lia|]. simpl in Hj. destruct i as [|i].
  - left. injection Hi as ->. split; [done|]. by eapply list_elem_of_lookup_2.
  - right. exists i, j, y. split_and!; [lia|done..].
Qed.

Lemma After_filter k x (f : Song → bool) l :
  After k x (List.filter f l) → After k x l.
Proof.
  induction l as [|a l IH]; simpl; [done|]. destruct (f a).
  - intros [[Ha Hx]|H]%After_cons_inv.
    + apply After_head; [done|].
      apply list_elem_of_In, filter_In in Hx as [Hx _]. by apply list_elem_of_In.
    + by apply After_skip, IH.
  - intros H. by apply After_skip, IH.
Qed.

Lemma Coherent_refl S : Coherent S S.
Proof. by split. Qed.

Lemma Coherent_filter (f : Song → bool) S : Coherent S (List.filter f S).
Proof.
  split.
  - intros x Hx. apply list_elem_of_In, filter_In in Hx as [Hx _].
    by apply list_elem_of_In.
  - intros k x _. apply After_filter.
Qed.

(** The first record with a given identifier, after it was replaced by one
    with the same identifier, is still the first. *)
Lemma list_find_insert (k : option jstring) (l : list Song) p a u :
  list_find (λ song, id song = k) l = Some (p, a) → id u = k →
  list_find (λ song, id song = k) (<[p:=u]> l) = Some (p, u).
Proof.
  intros (Hp & Ha & Hfirst)%list_find_Some Hu. apply list_find_Some.
  split_and!; [|done|].
  - apply list_lookup_insert_eq. by eapply lookup_lt_Some.
  - intros j y Hj Hlt. rewrite list_lookup_insert_ne in Hj by lia. eauto.
Qed.

(** A comment edit keeps the view coherent: [u] replaces the first record
    with identifier [k] of the mirror and of the view. *)
Lemma Coherent_patch k u S F p a :
  Coherent S F → id u = Some k →
  list_find (λ song, id song = Some k) S = Some (p, a) →
  Coherent (<[p:=u]> S) (setAt (findIndexById (Some k) F) u F).
Proof.
  intros [Hsub Hafter] Hu (Hp & Ha & Hfirst)%list_find_Some.
  assert (p < length S) as Hlen by by eapply lookup_lt_Some.
  assert (∀ x, id x = Some k → After k x S → After k x (<[p:=u]> S)) as HS.
  { intros x Hx (i & j & y & Hij & Hi & Hy & Hj).
    assert (p ≤ i) as Hpi.
    { destruct (decide (p ≤ i)); [done|]. exfalso. apply (Hfirst i y); [done|lia|done]. }
    exists p, j, u. split_and!; [lia| |done|].
    - by apply list_lookup_insert_eq.
    - rewrite list_lookup_insert_ne by lia. done. }
  assert (∀ k' x, k' ≠ k → id x = Some k' → After k' x S →
          After k' x (<[p:=u]> S)) as HS'.
  { intros k' x Hne Hx (i & j & y & Hij & Hi & Hy & Hj).
    exists i, j, y. split_and!; [done| |done|].
    - rewrite list_lookup_insert_ne; [done|]. intros <-. congruence.
    - rewrite list_lookup_insert_ne; [done|]. intros <-. congruence. }
  assert (∀ x, x ∈ S → id x ≠ Some k → x ∈ <[p:=u]> S) as Hkeep.
  { intros x (m & Hm)%list_elem_of_lookup Hx.
    apply list_elem_of_lookup. exists m.
    rewrite list_lookup_insert_ne; [done|]. intros <-. congruence. }
  assert (∀ x, id x = Some k → After k x S → x ∈ <[p:=u]> S) as Hlater.
  { intros x Hx (i & j & y & Hij & Hi & Hy & Hj)%HS; [|done].
    by eapply list_elem_of_lookup_2. }
  unfold findIndexById.
  destruct (list_find (λ song, id song = Some k) F) as [[q b]|] eqn:HF; simpl.
  - apply list_find_Some in HF as (Hq & Hb & Hqfirst).
    assert (q < length F) as HlenF by by eapply lookup_lt_Some.
    split.
    + intros x (j & Hj)%list_elem_of_lookup.
      destruct (decide (j = q)) as [->|Hjq].
      * rewrite list_lookup_insert_eq in Hj by done. injection Hj as <-.
        apply list_elem_of_lookup. exists p. by apply list_lookup_insert_eq.
      * rewrite list_lookup_insert_ne in Hj by done.
        destruct (decide (id x = Some k)) as [Hx|Hx].
        -- apply Hlater; [done|]. apply Hafter; [done|].
           assert (q < j).
           { destruct (decide (q < j)); [done|]. exfalso.
             apply (Hqfirst j x); [done|lia|done]. }
           by exists q, j, b.
        -- apply Hkeep; [|done]. apply Hsub. by eapply list_elem_of_lookup_2.
    + intros k' x Hx (i & j & y & Hij & Hi & Hy & Hj).
      destruct (decide (k' = k)) as [->|Hne].
      * apply HS; [done|]. apply Hafter; [done|].
        assert (q ≤ i).
        { destruct (decide (q ≤ i)); [done|]. exfalso.
          rewrite list_lookup_insert_ne in Hi by lia.
          apply (Hqfirst i y); [done|lia|done]. }
        rewrite list_lookup_insert_ne in Hj by lia.
        exists q, j, b. split_and!; [lia|done..].
      * apply HS'; [done..|]. apply Hafter; [done|].
        exists i, j, y. split_and!; [done| |done|].
        -- destruct (decide (i = q)) as [->|?].
           ++ rewrite list_lookup_insert_eq in Hi by done. congruence.
           ++ by rewrite list_lookup_insert_ne in Hi.
        -- destruct (decide (j = q)) as [->|?].
           ++ rewrite list_lookup_insert_eq in Hj by done. congruence.
           ++ by rewrite list_lookup_insert_ne in Hj.
  - apply list_find_None in HF. split.
    + intros x Hx. apply Hkeep; [by apply Hsub|].
      by eapply (proj1 (Forall_forall _ _) HF).
    + intros k' x Hx HFa. destruct (decide (k' = k)) as [->|Hne].
      * apply HS; [done|]. by apply Hafter.
      * apply HS'; [done..|]. by apply Hafter.
Qed.

(** *** The orchestrator *)

Section SongManager_facts.
Context {B : Type} `{!Firestore B}.
Implicit Types (w : World B) (sm : SongManager B).

Lemma clearLegacy_run w :
  clearLegacy w
  = (mkWorld (isInitialized w) (db w)
       (if 0 <? length (legacyList w) then None else localStorage w)
       (calls w), inr tt).
Proof.
  unfold clearLegacy. rewrite bind_run. unfold readLegacy. cbv beta iota.
  destruct (0 <? length (legacyList w)); [done|]. by destruct w.
Qed.

Lemma clearLegacy_empties w : legacyList (clearLegacy w).1 = [].
Proof.
  rewrite clearLegacy_run. unfold legacyList at 1. simpl.
  destruct (0 <? length (legacyList w)) eqn:E; [done|].
  apply Nat.ltb_ge in E. fold (legacyList w).
  destruct (legacyList w); [done|simpl in E; lia].
Qed.

(** C9: in the initial load of a ready orchestrator the legacy list, when
    not empty, is removed from local storage before the migration runs; the
    migration then reads an empty list and returns at once, so the whole
    load makes a single backend call, the ordered listing, and no [add]. *)
Theorem loadInitialData_clears_before_migrating sm :
  isInitialized (firebaseManager sm) = true →
  (legacyList (firebaseManager sm) ≠ [] →
   localStorage (clearLegacy (firebaseManager sm)).1 = None)
  ∧ legacyList (clearLegacy (firebaseManager sm)).1 = []
  ∧ migrateFromLocalStorage (clearLegacy (firebaseManager sm)).1
    = ((clearLegacy (firebaseManager sm)).1, inr tt)
  ∧ ∃ sm', loadInitialData sm = Some sm'
           ∧ calls (firebaseManager sm')
             = calls (firebaseManager sm) ++ [CallGetOrdered]
           ∧ db (firebaseManager sm')
             = (fs_get_ordered (db (firebaseManager sm))).1
           ∧ legacyList (firebaseManager sm') = [].
Proof.
  intros Hready. set (w := firebaseManager sm) in *.
  pose proof (clearLegacy_empties w) as Hempty.
  assert (isInitialized (clearLegacy w).1 = true) as Hready1.
  { by rewrite clearLegacy_run. }
  pose proof (migrate_nothing_to_do _ Hready1 Hempty) as Hnoop.
  split_and!; [|done..|].
  - intros Hne. rewrite clearLegacy_run. simpl.
    assert ((0 <? length (legacyList w)) = true) as ->; [|done].
    apply Nat.ltb_lt. destruct (legacyList w); [done|simpl; lia].
  - unfold loadInitialData. fold w. rewrite Hready. eexists. split; [done|].
    unfold loadInitialData_try. rewrite bind_run.
    destruct (clearLegacy w) as [w1 r] eqn:Hclear.
    assert (r = inr ()) as -> by (rewrite clearLegacy_run in Hclear; congruence).
    simpl in Hnoop, Hempty, Hready1. rewrite bind_run, Hnoop.
    unfold loadSongs. rewrite requireInitialized_ready by done.
    rewrite bind_run. unfold call, resolve.
    rewrite clearLegacy_run in Hclear. injection Hclear as <-. simpl.
    destruct (fs_get_ordered (db w)) as [b [f|snapshot]]; simpl;
      (split_and!; [done..|exact Hempty]).
Qed.

(** The loop of the bulk import of a ready orchestrator: one [add] per
    candidate, in order, whatever the outcome of the earlier ones; the
    mirror gains the created records, in order; nothing is reported. *)
Lemma import_each_run (l : list Song) : ∀ sm,
  isInitialized (firebaseManager sm) = true →
  isInitialized (firebaseManager (import_each l sm)) = true
  ∧ calls (firebaseManager (import_each l sm))
    = calls (firebaseManager sm) ++ (CallAdd ∘ songData <$> l)
  ∧ alerts (import_each l sm) = alerts sm
  ∧ ∃ added, songs (import_each l sm) = songs sm ++ added
             ∧ content <$> added `sublist_of` content <$> l.
Proof.
  induction l as [|song l IH]; intros sm Hready; simpl.
  - rewrite app_nil_r. split_and!; [done..|]. exists []. by rewrite app_nil_r.
  - unfold addSong. rewrite requireInitialized_ready by done.
    rewrite bind_run. unfold call, resolve.
    destruct (fs_add (songData song) (db (firebaseManager sm)))
      as [b [f|docId]]; simpl.
    + lazymatch goal with
      | |- context [import_each l ?sm'] =>
          destruct (IH sm') as (Hr & Hc & Ha & added & Hs & Hsub); [done|]
      end.
      split_and!; [done| |done|].
      * rewrite Hc. simpl. by rewrite <- app_assoc.
      * exists added. split; [by rewrite Hs|]. by apply sublist_cons.
    + lazymatch goal with
      | |- context [import_each l ?sm'] =>
          destruct (IH sm') as (Hr & Hc & Ha & added & Hs & Hsub); [done|]
      end.
      split_and!; [done| |done|].
      * rewrite Hc. simpl. by rewrite <- app_assoc.
      * eexists (_ :: added). split.
        -- rewrite Hs. simpl. by rewrite <- app_assoc.
        -- simpl. by apply sublist_skip.
Qed.

(** What each operation does to the two lists. *)

Lemma handleSubmit_lists formData sm :
  Recomputed (handleSubmit formData sm) ∨ Untouched sm (handleSubmit formData sm).
Proof.
  unfold handleSubmit, Recomputed, Untouched. destruct (editing sm).
  - destruct (updateSong _ _ _) as [w [e|[|]]]; simpl; auto.
  - destruct (addSong _ _) as [w [e|newSong]]; simpl; auto.
Qed.

Lemma confirmDelete_lists sm :
  Recomputed (confirmDelete sm) ∨ Untouched sm (confirmDelete sm).
Proof.
  unfold confirmDelete, Recomputed, Untouched.
  destruct (songToDelete sm) as [song|]; [|auto].
  destruct (deleteSong _ _) as [w [e|[|]]]; simpl; auto.
Qed.

Lemma applyFiltersOn_lists ui sm :
  Recomputed (step (OpFilter ui) sm) ∧ page (step (OpFilter ui) sm) = ui.
Proof. done. Qed.

Lemma clearFilters_lists sm :
  ShowsAll (clearFilters sm) ∧ Recomputed (clearFilters sm).
Proof.
  split; [done|]. unfold Recomputed, applyFilters. simpl.
  change (shown (clearFilters sm)) with (songs sm).
  induction (songs sm) as [|x l IH]; [done|]. simpl. by rewrite <- IH.
Qed.

Lemma handleFileImport_lists file answer genId sm :
  ShowsAll (handleFileImport file answer genId sm)
  ∨ Untouched sm (handleFileImport file answer genId sm).
Proof.
  unfold handleFileImport, ShowsAll, Untouched.
  destruct file as [f|]; [|auto].
  destruct (negb _); [auto|]. destruct (file_text f) as [csvText|]; [|auto].
  destruct (_ =? 0); [auto|]. destruct (_ =? 0); [auto|].
  destruct answer; simpl; auto.
Qed.

Lemma loadInitialData_lists sm :
  ShowsAll (step OpLoad sm) ∨ Untouched sm (step OpLoad sm).
Proof.
  unfold step, loadInitialData, ShowsAll, Untouched.
  destruct (isInitialized _); simpl; [|auto].
  destruct (loadInitialData_try _) as [w [e|l]]; simpl; auto.
Qed.

Lemma updateComment_lists songId comment inputFound sm :
  Untouched sm (updateComment songId comment inputFound sm)
  ∨ ∃ u, id u = Some songId ∧ comments u = Some comment
         ∧ Patched songId u sm (updateComment songId comment inputFound sm).
Proof.
  unfold updateComment, Untouched.
  destruct (list_find _ (songs sm)) as [[p a]|] eqn:Hfind; [|auto].
  destruct inputFound; [|auto]. cbn [negb].
  destruct (updateSong _ _ _) as [w [e|[|]]]; [auto| |auto].
  pose proof Hfind as (_ & Ha & _)%list_find_Some.
  set (u := withComment a comment).
  assert (id u = Some songId) as Hu by exact Ha.
  assert (findIndexById (Some songId) (songs sm) = Some p) as Hidx.
  { unfold findIndexById. by rewrite Hfind. }
  assert (findIndexById (Some songId) (<[p:=u]> (songs sm)) = Some p) as Hidx'.
  { unfold findIndexById. by rewrite (list_find_insert _ _ _ _ _ Hfind Hu). }
  right. exists u. split_and!; [done..|].
  unfold Patched. rewrite Hidx. split; [done|].
  cbn [songs setWorld setAt mutateSongs].
  unfold shown at 1 2 4, mutateFiltered. cbn [filteredSongs mutateSongs setWorld songs].
  destruct (filteredSongs sm) as [|F] eqn:HF.
  - rewrite !Hidx. cbn [setAt]. rewrite Hidx'. unfold shown.
    cbn [filteredSongs mutateSongs setWorld songs]. rewrite HF, Hidx.
    cbn [setAt]. by rewrite list_insert_insert_eq.
  - rewrite !Hidx. cbn [setAt]. unfold shown. rewrite !HF.
    destruct (findIndexById (Some songId) F) as [fi|];
      cbn [filteredSongs assignFiltered mutateSongs setWorld songs setAt];
      by rewrite ?HF.
Qed.

Lemma step_Coherent op sm :
  Coherent (songs sm) (shown sm) →
  Coherent (songs (step op sm)) (shown (step op sm)).
Proof.
  intros Hco.
  assert (∀ sm', Untouched sm sm' → Coherent (songs sm') (shown sm')) as Hsame.
  { intros sm' [Hs Hf]. unfold shown in *. by rewrite Hs, Hf. }
  assert (∀ sm', Recomputed sm' → Coherent (songs sm') (shown sm')) as Hre.
  { intros sm' ->. apply Coherent_filter. }
  assert (∀ sm', ShowsAll sm' → Coherent (songs sm') (shown sm')) as Hall.
  { intros sm' ->. apply Coherent_refl. }
  destruct op as [song|formData|song| |songId comment inputFound
                  |file answer genId|ui| |].
  - by apply Hsame.
  - destruct (handleSubmit_lists formData sm); auto.
  - by apply Hsame.
  - destruct (confirmDelete_lists sm); auto.
  - destruct (updateComment_lists songId comment inputFound sm)
      as [?|(u & Hu & _ & Hsome & Hs & Hf)]; [auto|].
    simpl. rewrite Hs, Hf. unfold findIndexById at 1. unfold findIndexById in Hsome.
    destruct (list_find _ (songs sm)) as [[p a]|] eqn:Hfind;
      [|by destruct Hsome]. simpl.
    by eapply Coherent_patch.
  - destruct (handleFileImport_lists file answer genId sm); auto.
  - by apply Hre.
  - apply Hall, clearFilters_lists.
  - destruct (loadInitialData_lists sm); auto.
Qed.

Lemma run_Coherent ops : ∀ sm,
  Coherent (songs sm) (shown sm) →
  Coherent (songs (run ops sm)) (shown (run ops sm)).
Proof.
  induction ops as [|op ops IH]; intros sm Hco; [done|].
  simpl. by apply IH, step_Coherent.
Qed.




End SongManager_facts.

Lemma loadInitialData_clears_before_migrating_witness :
  let sm := newSongManager
              (mkWorld true (mkMemStore [] 0 []) (Some legacy2) []) in
  isInitialized (firebaseManager sm) = true
  ∧ legacyList (firebaseManager sm) ≠ []
  ∧ localStorage (clearLegacy (firebaseManager sm)).1 = None
  ∧ ∃ sm', loadInitialData sm = Some sm'
           ∧ calls (firebaseManager sm')
             = calls (firebaseManager sm) ++ [CallGetOrdered]
           ∧ db (firebaseManager sm')
             = (fs_get_ordered (db (firebaseManager sm))).1
           ∧ legacyList (firebaseManager sm') = [].
Proof.
  intros sm.
  assert (isInitialized (firebaseManager sm) = true) as Hready by reflexivity.
  assert (legacyList (firebaseManager sm) ≠ []) as Hne by discriminate.
  destruct (loadInitialData_clears_before_migrating sm Hready)
    as (Hclear & _ & _ & Hload).
  split_and!; [assumption|assumption|exact (Hclear Hne)|exact Hload].
Defined.

(** C4 (code at the failing input): three candidates, none in the catalog,
    the second [add] rejected.  The three calls are made in order and the
    mirror and the view end with the two records created, but the final
    message reports three imported songs. *)
Theorem bulk_import_reports_attempts_as_successes :
  let sm := handleFileImport (Some csv3) true (λ i, str "local")
              (newSongManager (mem_world [false; true; false])) in
  alerts sm = [ConfirmImport 3 3 0; AlertImported 3]
  ∧ songName <$> songs sm = [str "Persiana Americana"; str "Flaca"]
  ∧ id <$> songs sm = [Some (str "doc"); Some (str "doc++")]
  ∧ shown sm = songs sm
  ∧ calls (firebaseManager sm)
    = CallAdd <$>
        [mkSong None (str "Soda Stereo") (str "Persiana Americana") []
           (str "Aprobado") (str "Lento") (Some []) (Some ServerTimestamp)
           (Some ServerTimestamp);
         mkSong None (str "Los Piojos") (str "Tan Solo") []
           (str "Listo") (str "Movido") (Some []) (Some ServerTimestamp)
           (Some ServerTimestamp);
         mkSong None (str "Andres Calamaro") (str "Flaca") []
           (str "Rechazado") (str "Lento") (Some []) (Some ServerTimestamp)
           (Some ServerTimestamp)].
Proof. vm_compute. done. Qed.


(** A bulk import under a search text that matches nothing: the view shows
    the three records all the same. *)
Example bulk_import_shows_all :
  let sm := run [OpFilter (mkFilterUI (str "zzz") [] []);
                 OpImport (Some csv3) true (λ _, str "local")]
              (newSongManager (mem_world [])) in
  length (shown sm) = 3 ∧ applyFilters (page sm) (songs sm) = [].
Proof. vm_compute. done. Qed.

(** A form submitted under a search text that it does not match: the
    mirror gains the record and the view, recomputed, stays empty; when the
    backend refuses, nothing changes but the alert. *)
Example submit_outcomes :
  let ops := [OpFilter (mkFilterUI (str "zzz") [] []);
              OpSubmit (form "Los Piojos" "Tan Solo")] in
  let sm := run ops (newSongManager (mem_world [])) in
  let sm' := run ops (newSongManager (mem_world [true])) in
  songName <$> songs sm = [str "Tan Solo"] ∧ shown sm = []
  ∧ songs sm' = [] ∧ shown sm' = [] ∧ length (alerts sm') = 1.
Proof. vm_compute. done. Qed.

(** The texts the statements about blanks and case leave out: a name after
    a no-break space holds a blank beyond ASCII; an accented letter is no
    such blank, and no ASCII character either. *)
Example texts_left_out :
  ¬ PlainBlanks ((ascii_of_nat <$> [194; 160]) ++ str "Flaca")
  ∧ PlainBlanks (str "En grabación")
  ∧ ¬ Ascii7 (str "En grabación")
  ∧ Ascii7 (str "Persiana Americana").
Proof. split_and!; decide_by_compute. Qed.


(** The slip next to it: a double quote in a name is written doubled by the
    export and dropped by the parser. *)
Example export_then_parse_drops_quotes :
  let name := str "La " ++ [dquote] ++ str "Flaca" ++ [dquote] in
  let song := mkSong None (str "Andres Calamaro") name [] (str "Listo")
                (str "Lento") None None None in
  songName <$> parseCSV (λ _, str "local") (generateCSVContent [song])
  = [str "La Flaca"].
Proof. vm_compute. reflexivity. Qed.



(** ** Further properties *)

(** *** The filter: how queries compare *)

Lemma List_filter_all {A} (f : A → bool) (l : list A) :
  (∀ x, f x = true) → List.filter f l = l.
Proof.
  intros H. induction l as [|x l IH]; [done|]. simpl. by rewrite H, IH.
Qed.

Lemma List_filter_sublist {A} (f g : A → bool) (l : list A) :
  (∀ x, f x = true → g x = true) →
  List.filter f l `sublist_of` List.filter g l.
Proof.
  intros H. induction l as [|x l IH]; [done|]. simpl.
  destruct (f x) eqn:Hf.
  - rewrite (H x Hf). by apply sublist_skip.
  - destruct (g x); [by apply sublist_cons|done].
Qed.

Lemma toLowerCase_app s t : toLowerCase (s ++ t) = toLowerCase s ++ toLowerCase t.
Proof. apply fmap_app. Qed.

Lemma substringCI_widen pre t suf s :
  substringCI (pre ++ t ++ suf) s → substringCI t s.
Proof.
  rewrite !substringCI_lower.
  intros (p & q & H). exists (p ++ toLowerCase pre), (toLowerCase suf ++ q).
  rewrite H, !toLowerCase_app. by rewrite <- !app_assoc.
Qed.

Lemma Matches_widen pre t suf types states song :
  Matches (mkFilterUI (pre ++ t ++ suf) types states) song →
  Matches (mkFilterUI t types states) song.
Proof.
  unfold Matches; simpl. intros (Hs & Ht & Hst). split_and!; [|done..].
  destruct Hs as [Hnil|[H|[H|(c & Hc & H)]]].
  - left. apply app_eq_nil in Hnil as [_ Hnil]. by apply app_eq_nil in Hnil as [? _].
  - right. left. by eapply substringCI_widen.
  - right. right. left. by eapply substringCI_widen.
  - right. right. right. exists c. split; [done|]. by eapply substringCI_widen.
Qed.

(** The empty query keeps every song: the filter with an empty search box
    and nothing checked, and [searchSongs] with its criteria missing or
    empty, return the list as it is. *)
Theorem empty_query_keeps_all (songs : list Song) :
  applyFilters (mkFilterUI [] [] []) songs = songs
  ∧ searchSongs songs (mkCriteria None None None) = songs
  ∧ searchSongs songs (mkCriteria (Some []) (Some []) (Some [])) = songs.
Proof. split_and!; by apply List_filter_all. Qed.

(** Typing more narrows the result: the songs kept for a search text of
    ASCII characters are among those kept, in the same order, for any text
    it contains. *)
Theorem longer_search_narrows (pre t suf : jstring) (types states : list jstring)
    (songs : list Song) :
  Ascii7 (pre ++ t ++ suf) →
  applyFilters (mkFilterUI (pre ++ t ++ suf) types states) songs
  `sublist_of` applyFilters (mkFilterUI t types states) songs.
Proof.
  intros _. apply List_filter_sublist. intros song.
  rewrite (applyFilters_keep_spec (mkFilterUI (pre ++ t ++ suf) types states)),
    (applyFilters_keep_spec (mkFilterUI t types states)).
  apply Matches_widen.
Qed.

Lemma longer_search_narrows_witness :
  let songs := [draft "Soda Stereo" "Persiana Americana" None;
                draft "Los Piojos" "Tan Solo" None;
                draft "Sumo" "La rubia tarada" None] in
  Ascii7 (str "s" ++ str "o" ++ str "l")
  ∧ applyFilters (mkFilterUI (str "s" ++ str "o" ++ str "l") [] []) songs
    `sublist_of` applyFilters (mkFilterUI (str "o") [] []) songs
  ∧ songName <$> applyFilters (mkFilterUI (str "sol") [] []) songs
    = [str "Tan Solo"]
  ∧ songName <$> applyFilters (mkFilterUI (str "o") [] []) songs
    = [str "Persiana Americana"; str "Tan Solo"; str "La rubia tarada"].
Proof.
  intros songs.
  assert (Ascii7 (str "s" ++ str "o" ++ str "l")) as H by decide_by_compute.
  split_and!; [exact H| |reflexivity..].
  exact (longer_search_narrows (str "s") (str "o") (str "l") [] [] songs H).
Defined.

(** Checking more boxes widens the result: with at least one type checked,
    the songs kept are among those kept, in the same order, once further
    types and states are checked as well. *)
Theorem more_checked_widens (t : jstring) (types types' states states' : list jstring)
    (songs : list Song) :
  types ≠ [] → states ≠ [] → types ⊆ types' → states ⊆ states' →
  applyFilters (mkFilterUI t types states) songs
  `sublist_of` applyFilters (mkFilterUI t types' states') songs.
Proof.
  intros Ht Hs Htt Hss. apply List_filter_sublist. intros song.
  rewrite (applyFilters_keep_spec (mkFilterUI t types states)),
    (applyFilters_keep_spec (mkFilterUI t types' states')).
  unfold Matches; simpl. intros (H1 & [?|H2] & [?|H3]); try done.
  split_and!; [done|right; by apply Htt|right; by apply Hss].
Qed.

Lemma more_checked_widens_witness :
  let songs := [draft "Soda Stereo" "Persiana Americana" None;
                draft "Los Piojos" "Tan Solo" None] in
  [str "Lento"] ≠ [] ∧ [str "Aprobado"] ≠ []
  ∧ applyFilters (mkFilterUI (str "so") [str "Lento"] [str "Aprobado"]) songs
    `sublist_of`
    applyFilters (mkFilterUI (str "so") [str "Lento"; str "Movido"]
                    [str "Aprobado"; str "Listo"]) songs.
Proof.
  intros songs. split_and!; [discriminate..|].
  apply (more_checked_widens (str "so") [str "Lento"] [str "Lento"; str "Movido"]
           [str "Aprobado"] [str "Aprobado"; str "Listo"] songs);
    [discriminate|discriminate| |]; intros x Hx; apply list_elem_of_singleton in Hx;
    subst x; apply list_elem_of_here.
Defined.

(** *** The line parser and the rows of the export *)

Lemma map_first_id {A} (f : A → A) (l : list A) :
  (∀ x, f x = x) → map_first f l = l.
Proof. intros H. destruct l; simpl; by rewrite ?H. Qed.

Lemma loop_no_quote line : ∀ res cur,
  dquote ∉ line →
  parseCSVLine_loop line res cur false
  = res ++ map_first (λ x, cur ++ x) (split comma line).
Proof.
  induction line as [|c line IH]; intros res cur Hq.
  - simpl. by rewrite app_nil_r.
  - apply not_elem_of_cons in Hq as [Hc Hq]. cbn [parseCSVLine_loop split].
    rewrite bool_decide_eq_false_2 by congruence. cbn [negb andb].
    destruct (decide (c = comma)) as [->|Hne].
    + rewrite bool_decide_eq_true_2 by done. cbn [andb].
      rewrite IH by done. rewrite map_first_id by done.
      simpl. by rewrite <- app_assoc, app_nil_r.
    + rewrite bool_decide_eq_false_2 by done. cbn [andb].
      rewrite IH by done. f_equal.
      pose proof (split_nonempty comma line) as Hne'.
      destruct (split comma line) as [|r rs]; [done|]. simpl.
      by rewrite <- app_assoc.
Qed.

(** On a line without double quotes the line parser is the plain split on
    commas. *)
Theorem parseCSVLine_without_quotes (line : jstring) :
  dquote ∉ line → parseCSVLine line = split comma line.
Proof.
  intros H. unfold parseCSVLine. rewrite loop_no_quote by done.
  simpl. by apply map_first_id.
Qed.

Lemma parseCSVLine_without_quotes_witness :
  (dquote ∉ str "Flaca,Andres Calamaro,,Lento")
  ∧ parseCSVLine (str "Flaca,Andres Calamaro,,Lento")
    = [str "Flaca"; str "Andres Calamaro"; []; str "Lento"].
Proof.
  assert (dquote ∉ str "Flaca,Andres Calamaro,,Lento") as H
    by decide_by_compute.
  split; [exact H|].
  rewrite (parseCSVLine_without_quotes _ H). reflexivity.
Defined.

(** Fields escaped by the export and joined by commas are read back by the
    line parser one for one, whatever commas, quotes or line breaks they
    hold: each comes back without its double quotes, hence unchanged when
    it has none.  So the row of any song is read back as six fields. *)
Theorem escaped_row_reads_back :
  (∀ (f : jstring) (fs : list jstring),
     parseCSVLine (join comma (escapeCSVField ∘ Some <$> f :: fs))
     = unquote <$> f :: fs)
  ∧ (∀ f : jstring, dquote ∉ f ↔ unquote f = f)
  ∧ (∀ song : Song,
       parseCSVLine (csvRow song) = unquote <$> rowFields song
       ∧ length (parseCSVLine (csvRow song)) = 6).
Proof.
  split_and!.
  - intros f fs. unfold parseCSVLine. by rewrite loop_row.
  - intros f. split; [apply unquote_plain|]. intros <- Hq.
    unfold unquote in Hq. apply list_elem_of_In, filter_In in Hq as [_ Hq].
    by rewrite bool_decide_eq_true_2 in Hq.
  - intros song. rewrite parseCSVLine_csvRow. split; [done|].
    by rewrite length_fmap.
Qed.

(** *** The importer on whole files *)

Lemma parseCSV_rows_length genId headers lines : ∀ i,
  length (parseCSV_rows genId headers i lines) ≤ length lines.
Proof.
  induction lines as [|l lines IH]; intros i; simpl; [done|].
  specialize (IH (S i)). repeat case_match; simpl; lia.
Qed.

(** The importer yields at most one draft per line below the header; the
    first line never yields one, so a text of a single line, empty or not,
    yields none. *)
Theorem parseCSV_at_most_one_draft_per_row (genId : nat → jstring) (csvText : jstring) :
  length (parseCSV genId csvText) ≤ length (split newline csvText) - 1.
Proof.
  unfold parseCSV. etrans; [apply parseCSV_rows_length|].
  destruct (split newline csvText); simpl; lia.
Qed.









Lemma parseCSV_rows_headers genId headers headers' lines : ∀ i,
  bool_decide (str "Estado" ∈ headers) && bool_decide (str "Tipo" ∈ headers)
  = bool_decide (str "Estado" ∈ headers') && bool_decide (str "Tipo" ∈ headers') →
  parseCSV_rows genId headers i lines = parseCSV_rows genId headers' i lines.
Proof.
  intros i H. revert i. induction lines as [|l lines IH]; intros i; [done|].
  cbn [parseCSV_rows]. by rewrite H, IH.
Qed.

(** A file under the header that the importer documents for its original
    layout is read exactly as if it came under the header of the export:
    that header names a state and a type column too, so the branch for the
    original layout is not taken and the state is looked for in the third
    column. *)
Theorem original_header_is_read_as_new (genId : nat → jstring) (body : jstring) :
  parseCSV genId (originalHeader ++ newline :: body)
  = parseCSV genId (join comma csvHeaders ++ newline :: body).
Proof.
  unfold parseCSV.
  rewrite !split_app by decide_by_compute.
  change (tail (?h :: ?t)) with t.
  apply parseCSV_rows_headers. vm_compute. reflexivity.
Qed.




(** *** What the adapter leaves alone *)

Section Adapter_keeps.
Context {B : Type} `{!Firestore B}.

Lemma KeepsLocal_resolve {A} (a : A) : KeepsLocal (B:=B) (resolve a).
Proof. by intros w. Qed.

Lemma KeepsLocal_reject {A} (e : Error) : KeepsLocal (B:=B) (A:=A) (reject e).
Proof. by intros w. Qed.

Lemma KeepsLocal_call {A} (c : Call) (op : B → B * (Fault + A)) :
  KeepsLocal (call c op).
Proof.
  intros w. unfold call. destruct (op (db w)) as [b r]; simpl.
  split_and!; [done..|]. by apply prefix_app_r.
Qed.

Lemma KeepsLocal_bind {A C} (m : Async B A) (k : A → Async B C) :
  KeepsLocal m → (∀ a, KeepsLocal (k a)) → KeepsLocal (m ≫= k).
Proof.
  intros Hm Hk w. rewrite bind_run. specialize (Hm w).
  destruct (m w) as [w' [e|a]]; simpl in *; [done|].
  destruct (Hk a w') as (H1 & H2 & H3), Hm as (H4 & H5 & H6).
  split_and!; [congruence..|]. by etrans.
Qed.

Lemma KeepsLocal_tryLog {A} (m : Async B A) : KeepsLocal m → KeepsLocal (tryLog m).
Proof. intros Hm w. apply Hm. Qed.

Lemma KeepsLocal_requireInitialized : KeepsLocal (B:=B) requireInitialized.
Proof.
  intros w. unfold requireInitialized.
  destruct (isInitialized w) eqn:E; simpl; by rewrite ?E.
Qed.

Lemma KeepsLocal_migrate_each l : KeepsLocal (migrate_each l).
Proof.
  induction l as [|song l IH]; [apply KeepsLocal_resolve|].
  apply KeepsLocal_bind; [|done]. apply KeepsLocal_tryLog, KeepsLocal_call.
Qed.

(** No operation of the adapter writes to local storage or changes the
    readiness flag, whatever the backend answers; in particular the
    migration leaves the legacy list where it found it.  The calls made so
    far stay in the trace. *)
Theorem adapter_keeps_local_storage (song : Song) (songId : option jstring)
    (l : list Song) :
  KeepsLocal (B:=B) loadSongs
  ∧ KeepsLocal (B:=B) (addSong song)
  ∧ KeepsLocal (B:=B) (updateSong songId song)
  ∧ KeepsLocal (B:=B) (deleteSong songId)
  ∧ KeepsLocal (B:=B) migrateFromLocalStorage
  ∧ KeepsLocal (B:=B) (saveSongs l).
Proof.
  split_and!.
  - apply KeepsLocal_bind; [apply KeepsLocal_requireInitialized|]. intros _.
    apply KeepsLocal_bind; [apply KeepsLocal_call|]. intros ?. apply KeepsLocal_resolve.
  - apply KeepsLocal_bind; [apply KeepsLocal_requireInitialized|]. intros _.
    apply KeepsLocal_bind; [apply KeepsLocal_call|]. intros ?. apply KeepsLocal_resolve.
  - apply KeepsLocal_bind; [apply KeepsLocal_requireInitialized|]. intros _.
    apply KeepsLocal_bind; [|intros ?; apply KeepsLocal_resolve].
    destruct songId; [apply KeepsLocal_call|apply KeepsLocal_reject].
  - apply KeepsLocal_bind; [apply KeepsLocal_requireInitialized|]. intros _.
    apply KeepsLocal_bind; [|intros ?; apply KeepsLocal_resolve].
    destruct songId; [apply KeepsLocal_call|apply KeepsLocal_reject].
  - apply KeepsLocal_bind; [apply KeepsLocal_requireInitialized|]. intros _.
    apply KeepsLocal_bind; [intros w; by split_and!|]. intros localSongs.
    destruct (_ =? 0); [apply KeepsLocal_resolve|].
    apply KeepsLocal_bind; [apply KeepsLocal_call|]. intros snapshot.
    destruct (_ <? _); [apply KeepsLocal_migrate_each|apply KeepsLocal_resolve].
  - apply KeepsLocal_bind; [apply KeepsLocal_requireInitialized|]. intros _.
    apply KeepsLocal_resolve.
Qed.

End Adapter_keeps.

(** *** The orchestrator: what it never does *)

Section Orchestrator_keeps.
Context {B : Type} `{!Firestore B}.
Implicit Types (w : World B) (sm : SongManager B).

Lemma import_each_unready l : ∀ sm,
  isInitialized (firebaseManager sm) = false →
  firebaseManager (import_each l sm) = firebaseManager sm
  ∧ songs (import_each l sm) = songs sm.
Proof.
  induction l as [|song l IH]; intros sm Hun; [done|].
  cbn [import_each]. unfold addSong.
  rewrite requireInitialized_unready by done.
  destruct (IH (setWorld (firebaseManager sm) sm)) as [-> ->]; done.
Qed.

Lemma step_unready op sm :
  isInitialized (firebaseManager sm) = false →
  firebaseManager (step op sm) = firebaseManager sm
  ∧ songs (step op sm) = songs sm.
Proof.
  intros Hun.
  destruct op as [song|formData|song| |songId comment inputFound
                  |file answer genId|ui| |]; try done.
  - unfold step, handleSubmit, updateSong, addSong.
    rewrite !requireInitialized_unready by done. by destruct (editing sm).
  - unfold step, confirmDelete, deleteSong.
    destruct (songToDelete sm); [|done].
    by rewrite requireInitialized_unready.
  - unfold step, updateComment, updateSong.
    destruct (list_find _ _) as [[p a]|]; [|done].
    destruct inputFound; [|done]. cbn [negb].
    by rewrite requireInitialized_unready.
  - unfold step, handleFileImport.
    destruct file as [f|]; [|done]. destruct (negb _); [done|].
    destruct (file_text f); [|done].
    destruct (_ =? 0); [done|]. destruct (_ =? 0); [done|].
    destruct answer; [|done].
    lazymatch goal with
    | |- context [import_each ?l ?sm'] =>
        destruct (import_each_unready l sm') as [H1 H2]; [done|]
    end.
    cbn [firebaseManager songs alert assignFiltered]. by rewrite H1, H2.
  - unfold step, loadInitialData. by rewrite Hun.
Qed.

Lemma run_unready ops : ∀ sm,
  isInitialized (firebaseManager sm) = false →
  firebaseManager (run ops sm) = firebaseManager sm
  ∧ songs (run ops sm) = songs sm.
Proof.
  induction ops as [|op ops IH]; intros sm Hun; [done|].
  destruct (step_unready op sm Hun) as [Hw Hs].
  cbn [run foldl]. fold (run ops (step op sm)).
  destruct (IH (step op sm)) as [-> ->]; [by rewrite Hw|done].
Qed.

(** While the readiness flag is unset the orchestrator shows and writes
    nothing: whatever the user does, the mirror and the view stay empty
    and the adapter's world, its trace of calls included, stays as it
    was. *)
Theorem unready_orchestrator_stays_empty (w : World B) (ops : list Op) :
  isInitialized w = false →
  firebaseManager (run ops (newSongManager w)) = w
  ∧ songs (run ops (newSongManager w)) = []
  ∧ shown (run ops (newSongManager w)) = [].
Proof.
  intros Hun.
  destruct (run_unready ops (newSongManager w) Hun) as [Hw Hs].
  split_and!; [done..|].
  assert (Coherent (songs (run ops (newSongManager w)))
            (shown (run ops (newSongManager w)))) as [Hsub _].
  { apply run_Coherent. split; [done|].
    by intros k x _ (i & j & y & _ & Hi & _). }
  rewrite Hs in Hsub. destruct (shown _) as [|x l]; [done|].
  exfalso. by eapply not_elem_of_nil, Hsub, list_elem_of_here.
Qed.

End Orchestrator_keeps.

Lemma unready_orchestrator_stays_empty_witness :
  let w := mkWorld false (mkMemStore [] 0 []) (Some legacy2) [] in
  let ops := [OpLoad; OpSubmit (form "Los Piojos" "Tan Solo");
              OpImport (Some csv3) true (λ _, str "local");
              OpFilter (mkFilterUI (str "a") [] [])] in
  isInitialized w = false
  ∧ firebaseManager (run ops (newSongManager w)) = w
  ∧ songs (run ops (newSongManager w)) = []
  ∧ shown (run ops (newSongManager w)) = [].
Proof.
  intros w ops. split; [reflexivity|].
  apply (unready_orchestrator_stays_empty w ops). reflexivity.
Defined.

(** *** Every record of the mirror has an identifier *)

Section Mirror_ids.
Context {B : Type} `{!Firestore B}.
Implicit Types (w : World B) (sm : SongManager B).

Lemma HasIds_setAt i x l : HasIds l → is_Some (id x) → HasIds (setAt i x l).
Proof. intros Hl Hx. destruct i as [i|]; [by apply Forall_insert|done]. Qed.

Lemma HasIds_snoc l x : HasIds l → is_Some (id x) → HasIds (l ++ [x]).
Proof. intros Hl Hx. apply Forall_app. split; [done|]. by constructor. Qed.

Lemma HasIds_filter (f : Song → bool) l : HasIds l → HasIds (List.filter f l).
Proof.
  intros Hl. apply Forall_forall. intros x Hx.
  apply list_elem_of_In, filter_In in Hx as [Hx _].
  by apply (proj1 (Forall_forall _ _) Hl), list_elem_of_In.
Qed.

Lemma addSong_has_id song w w' added :
  addSong song w = (w', inr added) → is_Some (id added).
Proof.
  unfold addSong. rewrite bind_run.
  destruct (requireInitialized w) as [w1 [e|[]]]; [done|].
  rewrite bind_run. destruct (call _ _ w1) as [w2 [e|docId]]; [done|].
  unfold resolve. intros [= _ <-]. by eexists.
Qed.

Lemma import_each_HasIds l : ∀ sm,
  HasIds (songs sm) → HasIds (songs (import_each l sm)).
Proof.
  induction l as [|song l IH]; intros sm Hids; [done|].
  cbn [import_each].
  destruct (addSong song (firebaseManager sm)) as [w [e|added]] eqn:Hadd.
  - by apply IH.
  - apply IH. cbn [songs mutateSongs setWorld].
    apply HasIds_snoc; [done|]. by eapply addSong_has_id.
Qed.

Lemma loadSongs_HasIds w w' l : loadSongs w = (w', inr l) → HasIds l.
Proof.
  unfold loadSongs. rewrite bind_run.
  destruct (requireInitialized w) as [w1 [e|[]]]; [done|].
  rewrite bind_run. destruct (call _ _ w1) as [w2 [e|snapshot]]; [done|].
  unfold resolve. intros [= _ <-]. apply Forall_fmap, Forall_forall.
  intros [docId data] _. simpl. destruct (id data); by eexists.
Qed.

Lemma loadInitialData_try_HasIds w w' l :
  loadInitialData_try w = (w', inr l) → HasIds l.
Proof.
  unfold loadInitialData_try. rewrite bind_run.
  destruct (clearLegacy w) as [w1 [e|[]]]; [done|]. rewrite bind_run.
  destruct (migrateFromLocalStorage w1) as [w2 [e|[]]]; [done|].
  apply loadSongs_HasIds.
Qed.

Lemma step_HasIds op sm : HasIds (songs sm) → HasIds (songs (step op sm)).
Proof.
  intros Hids.
  destruct op as [song|formData|song| |songId comment inputFound
                  |file answer genId|ui| |]; try done.
  - unfold step, handleSubmit, editing.
    destruct (currentEditId sm) as [i|] eqn:Hedit.
    + destruct (truthy i).
      * destruct (updateSong _ _ _) as [w [e|[|]]]; try done.
        cbn [songs hideModal applyFiltersOn assignFiltered
               invalidateArtistsCache mutateSongs setWorld currentEditId].
        rewrite Hedit. apply HasIds_setAt; [done|]. by eexists.
      * destruct (addSong _ _) as [w [e|newSong]] eqn:Hadd; [done|].
        cbn [songs hideModal applyFiltersOn assignFiltered
               invalidateArtistsCache mutateSongs setWorld].
        apply HasIds_snoc; [done|]. by eapply addSong_has_id.
    + destruct (addSong _ _) as [w [e|newSong]] eqn:Hadd; [done|].
      cbn [songs hideModal applyFiltersOn assignFiltered
             invalidateArtistsCache mutateSongs setWorld].
      apply HasIds_snoc; [done|]. by eapply addSong_has_id.
  - unfold step, confirmDelete. destruct (songToDelete sm) as [song|]; [|done].
    destruct (deleteSong _ _) as [w [e|[|]]]; try done.
    cbn [songs hideDeleteModal applyFiltersOn assignFiltered
           invalidateArtistsCache assignSongs setWorld].
    by apply HasIds_filter.
  - destruct (updateComment_lists songId comment inputFound sm)
      as [[Hs _]|(u & Hu & _ & _ & Hs & _)]; cbn [step]; rewrite Hs; [done|].
    apply HasIds_setAt; [done|]. by eexists.
  - destruct (handleFileImport_lists file answer genId sm) as [Hall|[Hs _]];
      [|cbn [step]; by rewrite Hs].
    unfold step, handleFileImport.
    destruct file as [f|]; [|done]. destruct (negb _); [done|].
    destruct (file_text f); [|done].
    destruct (_ =? 0); [done|]. destruct (_ =? 0); [done|].
    destruct answer; [|done].
    cbn [songs alert assignFiltered]. by apply import_each_HasIds.
  - unfold step, loadInitialData. destruct (isInitialized _); [|done].
    cbn [default from_option].
    destruct (loadInitialData_try _) as [w [e|l]] eqn:Hload.
    + by constructor.
    + cbn [songs assignFiltered assignSongs]. by eapply loadInitialData_try_HasIds.
Qed.

Lemma run_HasIds ops : ∀ sm,
  HasIds (songs sm) → HasIds (songs (run ops sm)).
Proof.
  induction ops as [|op ops IH]; intros sm Hsm; [done|].
  cbn [run foldl]. by apply IH, step_HasIds.
Qed.

(** In every state the orchestrator reaches, every record of the mirror
    carries an identifier: records enter it only with the identifier of
    their document, with the one the store assigned on creation, or with
    the one of the record being edited. *)
Theorem mirror_records_have_ids (w : World B) (ops : list Op) :
  HasIds (songs (run ops (newSongManager w)))
  ∧ HasIds (shown (run ops (newSongManager w))).
Proof.
  assert (HasIds (songs (run ops (newSongManager w)))) as Hids.
  { apply run_HasIds. constructor. }
  split; [done|].
  assert (Coherent (songs (run ops (newSongManager w)))
            (shown (run ops (newSongManager w)))) as [Hsub _].
  { apply run_Coherent. split; [done|].
    by intros k x _ (i & j & y & _ & Hi & _). }
  apply Forall_forall. intros x Hx.
  by apply (proj1 (Forall_forall _ _) Hids), Hsub.
Qed.

End Mirror_ids.

(** *** The bulk import *)

Lemma sublist_same_length {A} (l1 l2 : list A) :
  l1 `sublist_of` l2 → length l2 ≤ length l1 → l1 = l2.
Proof.
  induction 1 as [|x l1 l2 _ IH|x l1 l2 Hsub _]; simpl; intros Hlen; [done| |].
  - f_equal. apply IH. lia.
  - apply sublist_length in Hsub. lia.
Qed.

Lemma newSongs_filter candidates existing :
  newSongs candidates existing = filter (λ c, ¬ Duplicates existing c) candidates.
Proof.
  apply List_filter_decide. intros c. apply newSongs_keep_spec.
Qed.

Lemma newSongs_nil candidates existing :
  newSongs candidates existing = [] ↔ Forall (Duplicates existing) candidates.
Proof.
  rewrite newSongs_filter. induction candidates as [|c l IH]; [done|].
  rewrite filter_cons, Forall_cons. destruct (decide (¬ Duplicates existing c)) as [H|H].
  - split; [done|]. by intros [? _].
  - rewrite IH. split; [|by intros [_ ?]].
    intros Hl. split; [|done]. by destruct (decide (Duplicates existing c)).
Qed.

Lemma Duplicates_withoutId existing c :
  Duplicates existing c ↔ Duplicates existing (withoutId c).
Proof. done. Qed.

Lemma Duplicates_app existing added c :
  Duplicates existing c ∨ Duplicates added c → Duplicates (existing ++ added) c.
Proof. unfold Duplicates. rewrite Exists_app. tauto. Qed.

Lemma Duplicates_content added c a :
  a ∈ added → content a = content c → Duplicates added c.
Proof.
  intros Ha [= Hart Hname _ _ _ _]. apply Exists_exists. exists a.
  rewrite Hart, Hname. split; [done|].
  split; by apply equalCI_lower.
Qed.

Lemma parseCSV_rows_genId genId genId' headers lines : ∀ i i',
  withoutId <$> parseCSV_rows genId headers i lines
  = withoutId <$> parseCSV_rows genId' headers i' lines.
Proof.
  induction lines as [|l lines IH]; intros i i'; [done|]. cbn [parseCSV_rows].
  destruct (truthy (trim l)); [|apply IH].
  destruct (4 <=? _); [|apply IH].
  rewrite !fmap_cons, (IH (S i) (S i')). f_equal.
  by destruct (_ && _).
Qed.

Section Bulk_import.
Context {B : Type} `{!Firestore B}.
Implicit Types (w : World B) (sm : SongManager B).

(** An import the user declines, whatever the file, reaches neither the
    backend nor the two lists. *)
Theorem declined_import_writes_nothing (file : option File)
    (genId : nat → jstring) sm :
  firebaseManager (handleFileImport file false genId sm) = firebaseManager sm
  ∧ Untouched sm (handleFileImport file false genId sm).
Proof.
  unfold handleFileImport, Untouched.
  destruct file as [f|]; [|done]. destruct (negb _); [done|].
  destruct (file_text f); [|done].
  destruct (_ =? 0); [done|]. by destruct (_ =? 0).
Qed.






Lemma handleFileImport_appends file genId sm :
  isInitialized (firebaseManager sm) = true →
  ∃ added,
    songs (handleFileImport file true genId sm) = songs sm ++ added
    ∧ content <$> added `sublist_of` content <$> candidates file genId sm.
Proof.
  intros Hready.
  assert (∀ l, ∃ added : list Song, songs sm = songs sm ++ added
            ∧ content <$> added `sublist_of` l) as Hnone.
  { intros l. exists []. rewrite app_nil_r. split; [done|apply sublist_nil_l]. }
  unfold handleFileImport, candidates.
  destruct file as [f|]; [|apply Hnone]. destruct (negb _); [apply Hnone|].
  destruct (file_text f) as [csvText|]; [|apply Hnone].
  destruct (_ =? 0); [apply Hnone|]. destruct (_ =? 0); [apply Hnone|].
  lazymatch goal with
  | |- context [import_each ?l ?sm'] =>
      destruct (import_each_run l sm') as (_ & _ & _ & added & Hs & Hsub);
        [done|]
  end.
  by exists added.
Qed.

(** Importing a file again creates nothing when every creation of the
    first import succeeded: each draft of the file then has its artist and
    song name in the mirror, so the second import, whatever identifiers it
    draws and whatever the user would answer, reaches neither the backend
    nor the mirror. *)
Theorem reimport_creates_nothing (file : option File) (genId genId' : nat → jstring)
    (answer : bool) sm :
  isInitialized (firebaseManager sm) = true →
  length (songs (handleFileImport file true genId sm))
  = length (songs sm) + length (candidates file genId sm) →
  firebaseManager
    (handleFileImport file answer genId' (handleFileImport file true genId sm))
  = firebaseManager (handleFileImport file true genId sm)
  ∧ songs
      (handleFileImport file answer genId' (handleFileImport file true genId sm))
    = songs (handleFileImport file true genId sm).
Proof.
  intros Hready Hlen.
  destruct (handleFileImport_appends file genId sm Hready) as (added & Hs & Hsub).
  assert (content <$> added = content <$> candidates file genId sm) as Hadded.
  { apply sublist_same_length; [done|].
    rewrite Hs, length_app in Hlen. rewrite !length_fmap. lia. }
  set (sm1 := handleFileImport file true genId sm) in *.
  unfold handleFileImport.
  destruct file as [f|]; [|done]. destruct (negb _); [done|].
  destruct (file_text f) as [csvText|] eqn:Htext; [|done].
  destruct (_ =? 0); [done|].
  assert (newSongs (parseCSV genId' csvText) (songs sm1) = []) as ->; [|done].
  apply newSongs_nil.
  assert (Forall (Duplicates (songs sm1)) (parseCSV genId csvText)) as Hall.
  { apply Forall_forall. intros c Hc. rewrite Hs. apply Duplicates_app.
    destruct (decide (Duplicates (songs sm) c)) as [?|Hnew]; [by left|right].
    assert (c ∈ candidates (Some f) genId sm) as Hcand.
    { unfold candidates. rewrite Htext, newSongs_filter.
      by apply list_elem_of_filter. }
    assert (content c ∈ content <$> added) as (a & Ha & Hin)%list_elem_of_fmap.
    { rewrite Hadded. by apply list_elem_of_fmap_2. }
    by eapply Duplicates_content. }
  assert (∀ l : list Song, Forall (Duplicates (songs sm1)) l
            ↔ Forall (Duplicates (songs sm1)) (withoutId <$> l)) as Hstrip.
  { intros l. rewrite Forall_fmap. apply Forall_proper; [|done].
    intros c. apply Duplicates_withoutId. }
  apply (proj2 (Hstrip _)). unfold parseCSV.
  rewrite (parseCSV_rows_genId genId' genId _ _ 1 1).
  apply (proj1 (Hstrip _)). exact Hall.
Qed.

End Bulk_import.


Lemma reimport_creates_nothing_witness :
  let sm := newSongManager (mem_world []) in
  let sm1 := handleFileImport (Some csv3) true (λ _, str "local") sm in
  isInitialized (firebaseManager sm) = true
  ∧ length (songs sm1)
    = length (songs sm) + length (candidates (Some csv3) (λ _, str "local") sm)
  ∧ length (songs sm1) = 3
  ∧ firebaseManager (handleFileImport (Some csv3) true (λ _, str "other") sm1)
    = firebaseManager sm1
  ∧ songs (handleFileImport (Some csv3) true (λ _, str "other") sm1)
    = songs sm1.
Proof.
  intros sm sm1.
  assert (isInitialized (firebaseManager sm) = true) as H1 by reflexivity.
  assert (length (songs sm1)
          = length (songs sm)
            + length (candidates (Some csv3) (λ _, str "local") sm)) as H2
    by (vm_compute; reflexivity).
  destruct (reimport_creates_nothing (Some csv3) (λ _, str "local")
              (λ _, str "other") true sm H1 H2) as [Hw Hs].
  split_and!; [done|done|vm_compute; reflexivity|exact Hw|exact Hs].
Defined.

(** *** Editing a comment *)

Section Comment_edit.
Context {B : Type} `{!Firestore B}.
Implicit Types (w : World B) (sm : SongManager B).

(** A comment edit that the backend accepts replaces, in the mirror, the
    first record with the identifier by the same record with the new
    comment, and changes nothing else; an edit of an identifier the mirror
    does not hold, one without the input on the page and one the backend
    refuses leave the mirror as it was.  Either way every record keeps its
    place and all its members other than the comments. *)
Theorem comment_edit_changes_comments_only (songId comment : jstring)
    (inputFound : bool) sm :
  match list_find (λ song, id song = Some songId) (songs sm) with
  | Some (p, a) =>
      if inputFound then
        match (updateSong (Some songId) (withComment a comment)
                 (firebaseManager sm)).2 with
        | inr _ =>
            songs (updateComment songId comment inputFound sm)
            = <[p := withComment a comment]> (songs sm)
        | inl _ => songs (updateComment songId comment inputFound sm) = songs sm
        end
      else songs (updateComment songId comment inputFound sm) = songs sm
  | None => songs (updateComment songId comment inputFound sm) = songs sm
  end
  ∧ withoutComments <$> songs (updateComment songId comment inputFound sm)
    = withoutComments <$> songs sm.
Proof.
  unfold updateComment.
  destruct (list_find _ (songs sm)) as [[p a]|] eqn:Hfind; [|done].
  destruct inputFound; [|done]. cbn [negb].
  pose proof (updateSong_accepts (Some songId) (withComment a comment)
                (firebaseManager sm)) as Htrue.
  destruct (updateSong _ _ _) as [w [e|success]]; [done|].
  cbn [snd] in *. rewrite (Htrue success eq_refl).
  pose proof Hfind as (Hp & Ha & _)%list_find_Some.
  set (u := withComment a comment).
  assert (id u = Some songId) as Hu by exact Ha.
  assert (findIndexById (Some songId) (songs sm) = Some p) as Hidx.
  { unfold findIndexById. by rewrite Hfind. }
  assert (findIndexById (Some songId) (<[p:=u]> (songs sm)) = Some p) as Hidx'.
  { unfold findIndexById. by rewrite (list_find_insert _ _ _ _ _ Hfind Hu). }
  assert (withoutComments <$> <[p:=u]> (songs sm)
          = withoutComments <$> songs sm) as Hkeep.
  { rewrite list_fmap_insert.
    change (withoutComments u) with (withoutComments a).
    apply list_insert_id. by rewrite list_lookup_fmap, Hp. }
  cbn [songs setWorld setAt mutateSongs].
  unfold shown, mutateFiltered. cbn [filteredSongs mutateSongs setWorld songs].
  destruct (filteredSongs sm) as [|F] eqn:HF.
  - rewrite !Hidx. cbn [setAt]. rewrite !Hidx'.
    cbn [filteredSongs mutateSongs setWorld songs].
    by rewrite !list_insert_insert_eq.
  - rewrite !Hidx. cbn [setAt].
    by destruct (findIndexById (Some songId) F) as [fi|];
      cbn [filteredSongs assignFiltered mutateSongs setWorld songs setAt];
      rewrite ?HF.
Qed.

End Comment_edit.

(** *** The local store: lookups after writes *)

Section Lookups.
Context (P : Song → Prop) `{!∀ x, Decision (P x)}.

Lemma find_snoc_new l x :
  Forall (λ y, ¬ P y) l → P x → snd <$> list_find P (l ++ [x]) = Some x.
Proof.
  intros Hl Hx. apply (proj2 (list_find_None P l)) in Hl.
  rewrite list_find_app_r by done. simpl. by rewrite decide_True.
Qed.

Lemma find_snoc_other l x :
  ¬ P x → snd <$> list_find P (l ++ [x]) = snd <$> list_find P l.
Proof.
  intros Hx. destruct (list_find P l) as [[i y]|] eqn:E.
  - by rewrite (list_find_app_l _ _ _ _ _ E).
  - rewrite list_find_app_r by done. simpl. by rewrite decide_False.
Qed.

Lemma find_insert_other l : ∀ i a y,
  l !! i = Some a → ¬ P a → ¬ P y →
  snd <$> list_find P (<[i:=y]> l) = snd <$> list_find P l.
Proof.
  induction l as [|x l IH]; intros i a y Hi Ha Hy; [done|].
  destruct i as [|i]; simpl in *.
  - injection Hi as ->. by rewrite !decide_False.
  - destruct (decide (P x)); [done|].
    rewrite <- !option_fmap_compose. 
    specialize (IH i a y Hi Ha Hy).
    destruct (list_find P (<[i:=y]> l)) as [[? ?]|],
      (list_find P l) as [[? ?]|]; simpl in *; congruence.
Qed.

Lemma find_filter_kept (f : Song → bool) l :
  (∀ x, P x → f x = true) →
  snd <$> list_find P (List.filter f l) = snd <$> list_find P l.
Proof.
  intros Hf. induction l as [|x l IH]; [done|]. simpl.
  destruct (decide (P x)) as [HP|HP].
  - rewrite (Hf x HP). simpl. by rewrite decide_True.
  - destruct (f x); simpl; rewrite ?decide_False by done.
    + destruct (list_find P (List.filter f l)) as [[? ?]|],
        (list_find P l) as [[? ?]|]; simpl in *; congruence.
    + rewrite IH. by destruct (list_find P l) as [[? ?]|].
Qed.

Lemma find_filter_dropped (f : Song → bool) l :
  (∀ x, P x → f x = false) → list_find P (List.filter f l) = None.
Proof.
  intros Hf. apply list_find_None, Forall_forall. intros x Hx HP.
  apply list_elem_of_In, filter_In in Hx as [_ Hx]. by rewrite (Hf x HP) in Hx.
Qed.

End Lookups.

Section StorageManager_facts.
Variable fits : list Song → bool.
Implicit Types st : StoredItem.

(** A song added under a fresh identifier is what a lookup of that
    identifier returns afterwards, the draft with the new identifier in
    place of any it had; it goes to the end of the stored list and the
    lookups of other identifiers are as before. *)
Theorem stored_add_then_lookup (song : Song) (newId : jstring) st :
  fits (StorageManager.loadSongs st ++ [withId song newId]) = true →
  Forall (λ s, id s ≠ Some newId) (StorageManager.loadSongs st) →
  (StorageManager.addSong fits song newId st).2 = Some (withId song newId)
  ∧ StorageManager.loadSongs (StorageManager.addSong fits song newId st).1
    = StorageManager.loadSongs st ++ [withId song newId]
  ∧ StorageManager.getSongById newId (StorageManager.addSong fits song newId st).1
    = Some (withId song newId)
  ∧ ∀ k, k ≠ newId →
      StorageManager.getSongById k (StorageManager.addSong fits song newId st).1
      = StorageManager.getSongById k st.
Proof.
  intros Hfits Hfresh.
  unfold StorageManager.addSong, StorageManager.saveSongs,
    StorageManager.getSongById. rewrite Hfits. simpl.
  split_and!; [done..| |].
  - by apply find_snoc_new.
  - intros k Hk. apply find_snoc_other. simpl. congruence.
Qed.

(** With a storage that takes every write, an update of an identifier
    the store does not hold writes nothing and returns nothing; otherwise
    it replaces the first record with the identifier by the given one,
    under that identifier whatever identifier it came with: it is what the
    update returns and what a lookup of the identifier returns afterwards;
    the list keeps its length and the lookups of other identifiers are as
    before. *)
Theorem stored_update_then_lookup (songId : jstring) (updatedSong : Song) st :
  (∀ l, fits l = true) →
  match StorageManager.getSongById songId st with
  | None => StorageManager.updateSong fits songId updatedSong st = (st, None)
  | Some _ =>
      (StorageManager.updateSong fits songId updatedSong st).2
      = Some (withId updatedSong songId)
      ∧ StorageManager.getSongById songId
          (StorageManager.updateSong fits songId updatedSong st).1
        = Some (withId updatedSong songId)
      ∧ length (StorageManager.loadSongs
                  (StorageManager.updateSong fits songId updatedSong st).1)
        = length (StorageManager.loadSongs st)
      ∧ ∀ k, k ≠ songId →
          StorageManager.getSongById k
            (StorageManager.updateSong fits songId updatedSong st).1
          = StorageManager.getSongById k st
  end.
Proof.
  intros Hfits.
  unfold StorageManager.updateSong, StorageManager.getSongById,
    StorageManager.saveSongs, findIndexById.
  destruct (list_find _ (StorageManager.loadSongs st)) as [[i a]|] eqn:Hfind;
    simpl; [|done].
  rewrite Hfits. simpl.
  pose proof Hfind as (Hi & Ha & _)%list_find_Some.
  assert (i < length (StorageManager.loadSongs st)) by by eapply lookup_lt_Some.
  split_and!.
  - by rewrite list_lookup_insert_eq.
  - by rewrite (list_find_insert _ _ _ _ (withId updatedSong songId) Hfind).
  - by rewrite length_insert.
  - intros k Hk. eapply find_insert_other; [done|simpl; congruence..].
Qed.

(** A deletion that goes through removes every record with the identifier,
    so that a lookup of it finds nothing, and nothing else: the other
    records stay in their order and the lookups of other identifiers are as
    before. *)
Theorem stored_delete_then_lookup (songId : jstring) st :
  fits (List.filter (λ song, negb (bool_decide (id song = Some songId)))
          (StorageManager.loadSongs st)) = true →
  (StorageManager.deleteSong fits songId st).2 = true
  ∧ StorageManager.getSongById songId (StorageManager.deleteSong fits songId st).1
    = None
  ∧ StorageManager.loadSongs (StorageManager.deleteSong fits songId st).1
    `sublist_of` StorageManager.loadSongs st
  ∧ ∀ k, k ≠ songId →
      StorageManager.getSongById k (StorageManager.deleteSong fits songId st).1
      = StorageManager.getSongById k st.
Proof.
  intros Hfits.
  unfold StorageManager.deleteSong, StorageManager.saveSongs,
    StorageManager.getSongById. rewrite Hfits. simpl. split_and!; [done| | |].
  - rewrite find_filter_dropped; [done|].
    intros x Hx. by rewrite bool_decide_eq_true_2.
  - rewrite <- (List_filter_all (λ _, true) (StorageManager.loadSongs st)) at 2
      by done.
    by apply List_filter_sublist.
  - intros k Hk. apply find_filter_kept. intros x Hx.
    rewrite bool_decide_eq_false_2; [done|]. congruence.
Qed.

(** A write that the storage refuses changes nothing: adding, updating,
    deleting, restoring a backup and regenerating the identifiers then
    report the failure and leave the stored item as it was. *)
Theorem stored_refused_write_changes_nothing (song : Song) (k : jstring)
    (data : option Backup) (genId : nat → jstring) st :
  (∀ l, fits l = false) →
  StorageManager.addSong fits song k st = (st, None)
  ∧ StorageManager.updateSong fits k song st = (st, None)
  ∧ StorageManager.deleteSong fits k st = (st, false)
  ∧ StorageManager.importData fits data st = (st, false)
  ∧ StorageManager.regenerateAllIds fits genId st = (st, None).
Proof.
  intros Hfull.
  unfold StorageManager.addSong, StorageManager.updateSong,
    StorageManager.deleteSong, StorageManager.importData,
    StorageManager.regenerateAllIds, StorageManager.saveSongs.
  rewrite !Hfull. split_and!; try done.
  - destruct (findIndexById _ _); [by rewrite Hfull|done].
  - destruct data; [by rewrite Hfull|done].
Qed.

(** Restoring a backup brings the songs back: whatever the storage holds
    at that time, after [importData] of what [exportData] returned the
    stored list is the one that was exported. *)
Theorem stored_backup_round_trip st st' :
  fits (StorageManager.loadSongs st) = true →
  StorageManager.importData fits (Some (StorageManager.exportData st)) st'
  = (ItemSongs (StorageManager.loadSongs st), true)
  ∧ StorageManager.loadSongs
      (StorageManager.importData fits (Some (StorageManager.exportData st)) st').1
    = StorageManager.loadSongs st.
Proof.
  intros Hfits. unfold StorageManager.importData, StorageManager.exportData,
    StorageManager.saveSongs. simpl. by rewrite Hfits.
Qed.

(** Regenerating the identifiers keeps the stored songs in place, each
    with all its members but the identifier; the identifiers are those
    drawn, so they are pairwise distinct when the draws are. *)
Theorem stored_regenerate_ids (genId : nat → jstring) st :
  (∀ l, fits l = true) → Inj (=) (=) genId →
  ∃ l, StorageManager.regenerateAllIds fits genId st = (ItemSongs l, Some l)
       ∧ withoutId <$> l = withoutId <$> StorageManager.loadSongs st
       ∧ (∀ i song, l !! i = Some song → id song = Some (genId i))
       ∧ NoDup (id <$> l).
Proof.
  intros Hfits Hinj. eexists. unfold StorageManager.regenerateAllIds,
    StorageManager.saveSongs. rewrite Hfits. split_and!; [done| | |].
  - rewrite fmap_imap. rewrite <- (imap_const withoutId).
    by apply imap_ext.
  - intros i song Hsong. rewrite list_lookup_imap in Hsong.
    destruct (StorageManager.loadSongs st !! i); simpl in Hsong; [|done].
    by injection Hsong as <-.
  - apply NoDup_alt. intros i j x Hi Hj.
    rewrite list_lookup_fmap, list_lookup_imap in Hi, Hj.
    destruct (StorageManager.loadSongs st !! i); [|done].
    destruct (StorageManager.loadSongs st !! j); [|done].
    simpl in *. apply Hinj. congruence.
Qed.

End StorageManager_facts.

Lemma stored_add_then_lookup_witness :
  let fits := λ _ : list Song, true in
  let st := ItemSongs legacy2 in
  let song := draft "Sumo" "La rubia tarada" (Some "17") in
  fits (StorageManager.loadSongs st ++ [withId song (str "19")]) = true
  ∧ Forall (λ s, id s ≠ Some (str "19")) (StorageManager.loadSongs st)
  ∧ StorageManager.getSongById (str "19")
      (StorageManager.addSong fits song (str "19") st).1
    = Some (draft "Sumo" "La rubia tarada" (Some "19"))
  ∧ StorageManager.getSongById (str "17")
      (StorageManager.addSong fits song (str "19") st).1
    = Some (draft "Soda Stereo" "Persiana Americana" (Some "17")).
Proof.
  intros fits st song.
  assert (fits (StorageManager.loadSongs st ++ [withId song (str "19")]) = true)
    as H1 by reflexivity.
  assert (Forall (λ s, id s ≠ Some (str "19")) (StorageManager.loadSongs st))
    as H2 by decide_by_compute.
  destruct (stored_add_then_lookup fits song (str "19") st H1 H2)
    as (_ & _ & Hnew & Hold).
  split_and!; [exact H1|exact H2|exact Hnew|].
  rewrite (Hold (str "17")); [reflexivity|discriminate].
Defined.

Lemma stored_update_then_lookup_witness :
  let fits := λ _ : list Song, true in
  let st := ItemSongs legacy2 in
  let song := draft "Los Piojos" "Verano del 92" (Some "17") in
  (∀ l, fits l = true)
  ∧ StorageManager.getSongById (str "18")
      (StorageManager.updateSong fits (str "18") song st).1
    = Some (draft "Los Piojos" "Verano del 92" (Some "18"))
  ∧ StorageManager.updateSong fits (str "20") song st = (st, None).
Proof.
  intros fits st song.
  assert (∀ l, fits l = true) as H by reflexivity.
  pose proof (stored_update_then_lookup fits (str "18") song st H) as Hheld.
  pose proof (stored_update_then_lookup fits (str "20") song st H) as Hnot.
  split_and!; [exact H|exact (proj1 (proj2 Hheld))|exact Hnot].
Defined.

Lemma stored_delete_then_lookup_witness :
  let fits := λ _ : list Song, true in
  let st := ItemSongs legacy2 in
  fits (List.filter (λ song, negb (bool_decide (id song = Some (str "17"))))
          (StorageManager.loadSongs st)) = true
  ∧ StorageManager.getSongById (str "17")
      (StorageManager.deleteSong fits (str "17") st).1 = None
  ∧ StorageManager.getSongById (str "18")
      (StorageManager.deleteSong fits (str "17") st).1
    = Some (draft "Los Piojos" "Tan Solo" (Some "18")).
Proof.
  intros fits st.
  assert (fits (List.filter
                  (λ song, negb (bool_decide (id song = Some (str "17"))))
                  (StorageManager.loadSongs st)) = true) as H by reflexivity.
  destruct (stored_delete_then_lookup fits (str "17") st H)
    as (_ & Hgone & _ & Hother).
  split_and!; [exact H|exact Hgone|].
  rewrite (Hother (str "18")); [reflexivity|discriminate].
Defined.

Lemma stored_refused_write_changes_nothing_witness :
  let fits := λ _ : list Song, false in
  let st := ItemSongs legacy2 in
  (∀ l, fits l = false)
  ∧ StorageManager.deleteSong fits (str "17") st = (st, false)
  ∧ StorageManager.importData fits (Some (mkBackup [] (str "1.0"))) st
    = (st, false).
Proof.
  intros fits st.
  assert (∀ l, fits l = false) as H by reflexivity.
  destruct (stored_refused_write_changes_nothing fits
              (draft "Sumo" "La rubia tarada" None) (str "17")
              (Some (mkBackup [] (str "1.0"))) (λ _, str "21") st H)
    as (_ & _ & Hdel & Himp & _).
  by split_and!.
Defined.

Lemma stored_backup_round_trip_witness :
  let fits := λ _ : list Song, true in
  let st := ItemSongs legacy2 in
  fits (StorageManager.loadSongs st) = true
  ∧ StorageManager.loadSongs
      (StorageManager.importData fits (Some (StorageManager.exportData st))
         ItemGarbled).1
    = legacy2.
Proof.
  intros fits st.
  assert (fits (StorageManager.loadSongs st) = true) as H by reflexivity.
  split; [exact H|].
  exact (proj2 (stored_backup_round_trip fits st ItemGarbled H)).
Defined.

Lemma stored_regenerate_ids_witness :
  let fits := λ _ : list Song, true in
  let genId := λ i : nat, replicate (S i) (ascii_of_nat 49) in
  let st := ItemSongs [draft "Sumo" "La rubia tarada" (Some "17");
                       draft "Sumo" "La rubia tarada" (Some "17")] in
  (∀ l, fits l = true) ∧ Inj (=) (=) genId
  ∧ ∃ l, StorageManager.regenerateAllIds fits genId st = (ItemSongs l, Some l)
         ∧ NoDup (id <$> l).
Proof.
  intros fits genId st.
  assert (∀ l, fits l = true) as H1 by reflexivity.
  assert (Inj (=) (=) genId) as H2.
  { intros i j Hij. apply (f_equal length) in Hij. subst genId. simpl in Hij.
    rewrite !length_replicate in Hij. lia. }
  destruct (stored_regenerate_ids fits genId st H1 H2)
    as (l & Hl & _ & _ & Hnd).
  split_and!; [exact H1|exact H2|]. by exists l.
Defined.

(** *** Artist suggestions *)





Section Suggestions_facts.
Context {B : Type} `{!Firestore B}.
Implicit Types sm : SongManager B.

Lemma import_each_cache (l : list Song) : ∀ sm,
  cachedArtists (import_each l sm) = cachedArtists sm.
Proof.
  induction l as [|song l IH]; intros sm; simpl; [done|].
  destruct (addSong song (firebaseManager sm)) as [w [e|added]];
    by rewrite IH.
Qed.

Lemma step_keeps_cache op sm :
  invalidates op = false → cachedArtists (step op sm) = cachedArtists sm.
Proof.
  destruct op as [song|?|song| |songId comment inputFound|file answer genId
                 |ui| |]; try done; intros _; cbn [step].
  - unfold updateComment.
    destruct (list_find _ (songs sm)) as [[p a]|]; [|done].
    destruct (negb inputFound); [done|].
    destruct (updateSong _ _ _) as [w [e|[|]]]; try done.
    cbn zeta. destruct (findIndexById _ (shown _)); [|done].
    unfold mutateFiltered. by destruct (filteredSongs _).
  - unfold handleFileImport. destruct file as [f|]; [|done].
    destruct (negb _); [done|]. destruct (file_text f); [|done].
    destruct (_ =? 0); [done|]. destruct (_ =? 0); [done|].
    destruct answer; [|done]. cbn [cachedArtists alert assignFiltered].
    by rewrite import_each_cache.
  - unfold loadInitialData. destruct (isInitialized _); [|done]. simpl.
    by destruct (loadInitialData_try _) as [w [e|l]].
Qed.


(** The cached list of artists outlives every operation but a submitted
    form and a confirmed deletion: after a CSV import or a reload the
    suggestions are still those of the songs the mirror held when the list
    was cached. *)
Theorem cached_artists_outlive_import (op : Op)
    (input : jstring) (cached : list jstring) sm :
  cachedArtists sm = Some cached → invalidates op = false →
  cachedArtists (step op sm) = Some cached
  ∧ (handleArtistInput input (step op sm)).2 = (handleArtistInput input sm).2.
Proof.
  intros Hwarm Hop. pose proof (step_keeps_cache op sm Hop) as Hkeep.
  rewrite Hwarm in Hkeep. split; [done|].
  unfold handleArtistInput. rewrite Hkeep, Hwarm.
  destruct (_ <? 2); [done|]. rewrite !Hkeep, !Hwarm. by destruct (0 <? _).
Qed.

End Suggestions_facts.


Lemma cached_artists_outlive_import_witness :
  let sm :=
    (handleArtistInput (str "su")
       (step (OpSubmit (form "Sumo" "La rubia tarada"))
          (newSongManager (mem_world [])))).1 in
  let op := OpImport (Some csv3) true (λ _, str "local") in
  cachedArtists sm = Some [str "Sumo"] ∧ invalidates op = false
  ∧ artistName <$> songs (step op sm)
    = [str "Sumo"; str "Soda Stereo"; str "Los Piojos"; str "Andres Calamaro"]
  ∧ cachedArtists (step op sm) = Some [str "Sumo"]
  ∧ (handleArtistInput (str "soda") (step op sm)).2 = None.
Proof.
  intros sm op.
  assert (cachedArtists sm = Some [str "Sumo"]) as H1 by reflexivity.
  assert (invalidates op = false) as H2 by reflexivity.
  destruct (cached_artists_outlive_import op (str "soda") [str "Sumo"] sm H1 H2)
    as [Hcache Hsame].
  split_and!; [exact H1|exact H2|reflexivity|exact Hcache|].
  rewrite Hsame. reflexivity.
Defined.

(** *** The counters of the local store *)

Lemma countKey_lookup (key k : jstring) (table : gmap jstring nat) :
  default 0 (countKey key table !! k)
  = default 0 (table !! k) + (if bool_decide (key = k) then 1 else 0).
Proof.
  unfold countKey. destruct (bool_decide_reflect (key = k)) as [->|Hne].
  - by rewrite lookup_insert_eq.
  - rewrite lookup_insert_ne by done. lia.
Qed.

Lemma countKey_positive (key : jstring) (table : gmap jstring nat) :
  map_Forall (λ _ n, 0 < n) table → map_Forall (λ _ n, 0 < n) (countKey key table).
Proof.
  intros Hpos. apply map_Forall_insert_2; [lia|done].
Qed.

Lemma sumOfCounters_countKey (key : jstring) (table : gmap jstring nat) :
  sumOfCounters (countKey key table) = S (sumOfCounters table).
Proof.
  unfold sumOfCounters, countKey.
  destruct (table !! key) as [n|] eqn:Hkey; simpl.
  - rewrite <- (insert_delete_id table key n Hkey) at 2.
    rewrite <- (insert_delete_eq table).
    rewrite !map_fold_insert_L; try (intros; lia); apply lookup_delete_eq.
  - rewrite map_fold_insert_L; [lia|intros; lia|done].
Qed.

Section Counters.
Variable key : Song → jstring.

Lemma tally_lookup (l : list Song) : ∀ table k,
  default 0 (foldl (λ t song, countKey (key song) t) table l !! k)
  = default 0 (table !! k)
    + length (List.filter (λ song, bool_decide (key song = k)) l).
Proof.
  induction l as [|song l IH]; intros table k; simpl; [lia|].
  rewrite IH, countKey_lookup. destruct (bool_decide _); simpl; lia.
Qed.

Lemma tally_positive (l : list Song) : ∀ table,
  map_Forall (λ _ n, 0 < n) table →
  map_Forall (λ _ n, 0 < n) (foldl (λ t song, countKey (key song) t) table l).
Proof.
  induction l as [|song l IH]; intros table Hpos; simpl; [done|].
  by apply IH, countKey_positive.
Qed.

Lemma tally_sum (l : list Song) : ∀ table,
  sumOfCounters (foldl (λ t song, countKey (key song) t) table l)
  = sumOfCounters table + length l.
Proof.
  induction l as [|song l IH]; intros table; simpl; [lia|].
  rewrite IH, sumOfCounters_countKey. lia.
Qed.

Lemma tally_entry (l : list Song) k n :
  foldl (λ t song, countKey (key song) t) ∅ l !! k = Some n
  ↔ 0 < n ∧ n = length (List.filter (λ song, bool_decide (key song = k)) l).
Proof.
  pose proof (tally_lookup l ∅ k) as Hn.
  pose proof (tally_positive l ∅ (map_Forall_empty _)) as Hpos.
  rewrite lookup_empty in Hn. simpl in Hn.
  destruct (foldl _ ∅ l !! k) as [m|] eqn:Hm; simpl in Hn.
  - apply Hpos in Hm. split; [intros [= <-]; lia|intros [_ ->]; by f_equal].
  - split; [done|]. lia.
Qed.

End Counters.

Lemma getStats_tables (l : list Song) : ∀ stats,
  let out :=
    foldl (λ stats song,
             mkStats (total stats)
               (countKey (state song) (byState stats))
               (countKey (type song) (byType stats))
               (countKey (artistName song) (byArtist stats))) stats l in
  total out = total stats
  ∧ byState out = foldl (λ t song, countKey (state song) t) (byState stats) l
  ∧ byType out = foldl (λ t song, countKey (type song) t) (byType stats) l
  ∧ byArtist out
    = foldl (λ t song, countKey (artistName song) t) (byArtist stats) l.
Proof.
  induction l as [|song l IH]; intros stats; simpl; [done|].
  apply (IH (mkStats _ _ _ _)).
Qed.

(** When no state, type or artist of a stored song is a name that objects
    inherit, the statistics count the songs: the total is the number of
    songs; each table holds, for the keys that occur and for no other, the
    number of songs with that state, type or artist; and the counters of
    each table add up to the total. *)
Theorem getStats_counts_songs (st : StoredItem) :
  Forall (λ song, Forall (λ k, k ∉ objectPrototypeKeys) (statKeys song))
    (StorageManager.loadSongs st) →
  let songs := StorageManager.loadSongs st in
  let stats := StorageManager.getStats st in
  total stats = length songs
  ∧ (∀ k n, byState stats !! k = Some n
            ↔ 0 < n
              ∧ n = length (List.filter (λ song, bool_decide (state song = k))
                              songs))
  ∧ (∀ k n, byType stats !! k = Some n
            ↔ 0 < n
              ∧ n = length (List.filter (λ song, bool_decide (type song = k))
                              songs))
  ∧ (∀ k n, byArtist stats !! k = Some n
            ↔ 0 < n
              ∧ n = length (List.filter
                              (λ song, bool_decide (artistName song = k)) songs))
  ∧ sumOfCounters (byState stats) = total stats
  ∧ sumOfCounters (byType stats) = total stats
  ∧ sumOfCounters (byArtist stats) = total stats.
Proof.
  intros _ songs stats. subst stats. unfold StorageManager.getStats.
  fold songs.
  destruct (getStats_tables songs (mkStats (length songs) ∅ ∅ ∅))
    as (-> & -> & -> & ->). cbn [total byState byType byArtist].
  split_and!; [done|intros; apply tally_entry..| | |];
    by rewrite tally_sum.
Qed.

Lemma getStats_counts_songs_witness :
  let st :=
    ItemSongs [draft "Soda Stereo" "Persiana Americana" (Some "17");
               draft "Los Piojos" "Tan Solo" (Some "18");
               draft "Soda Stereo" "Signos" (Some "19")] in
  Forall (λ song, Forall (λ k, k ∉ objectPrototypeKeys) (statKeys song))
    (StorageManager.loadSongs st)
  ∧ byArtist (StorageManager.getStats st) !! str "Soda Stereo" = Some 2
  ∧ sumOfCounters (byArtist (StorageManager.getStats st)) = 3.
Proof.
  intros st.
  assert (Forall (λ song, Forall (λ k, k ∉ objectPrototypeKeys) (statKeys song))
            (StorageManager.loadSongs st)) as H by decide_by_compute.
  destruct (getStats_counts_songs st H) as (Htotal & _ & _ & Hartist & _ & _ & Hsum).
  split_and!; [exact H| |].
  - apply Hartist. split; [lia|reflexivity].
  - rewrite Hsum. exact Htotal.
Defined.

(** *** The line wrapping of the PDF *)

Lemma join_split sep s : join sep (split sep s) = s.
Proof.
  induction s as [|c s IH]; [done|]. simpl.
  destruct (decide (c = sep)) as [->|Hne].
  - pose proof (split_nonempty sep s) as Hs.
    destruct (split sep s) as [|r rs] eqn:E; [done|].
    change (join sep ([] :: r :: rs)) with ([] ++ sep :: join sep (r :: rs)).
    by rewrite IH.
  - pose proof (split_nonempty sep s) as Hs.
    destruct (split sep s) as [|r rs] eqn:E; [done|].
    rewrite <- IH. by destruct rs.
Qed.

Lemma join_snoc sep (l : list jstring) x :
  l ≠ [] → join sep (l ++ [x]) = join sep l ++ sep :: x.
Proof.
  induction l as [|y l IH]; [done|]. intros _.
  destruct l as [|z l]; [done|].
  change (join sep ((y :: z :: l) ++ [x]))
    with (y ++ sep :: join sep ((z :: l) ++ [x])).
  rewrite IH by done.
  change (join sep (y :: z :: l)) with (y ++ sep :: join sep (z :: l)).
  by rewrite <- app_assoc.
Qed.

Lemma join_last_app sep (l : list jstring) x t :
  join sep (l ++ [x ++ t]) = join sep (l ++ [x]) ++ t.
Proof.
  destruct (decide (l = [])) as [->|Hl]; [done|].
  rewrite !join_snoc by done. by rewrite <- app_assoc.
Qed.

Section Wrap_facts.
Variable tooWide : jstring → bool.

(** The lines pushed and the current line, read as one text. *)
Lemma wrapWord_text (words : list jstring) : ∀ lines currentLine,
  currentLine ≠ [] → Forall (λ w, w ≠ []) words →
  ∃ lines' currentLine',
    foldl (PDFGenerator.wrapWord tooWide) (lines, currentLine) words
    = (lines', currentLine')
    ∧ currentLine' ≠ []
    ∧ join space (lines' ++ [currentLine'])
      = join space (lines ++ [currentLine]) ++ concat ((space ::.) <$> words).
Proof.
  induction words as [|w words IH]; intros lines cur Hcur Hwords; simpl.
  - exists lines, cur. by rewrite app_nil_r.
  - inversion_clear Hwords as [|? ? Hw Hrest].
    unfold truthy. rewrite (bool_decide_eq_false_2 (cur = [])) by done.
    cbn [negb]. rewrite andb_true_r.
    destruct (tooWide _).
    + destruct (IH (lines ++ [cur]) w Hw Hrest) as (l' & c' & -> & Hc' & Hj).
      exists l', c'. split_and!; [done..|]. rewrite Hj.
      rewrite (join_snoc space (lines ++ [cur]) w) by by destruct lines.
      by rewrite <- app_assoc.
    + destruct (IH lines (cur ++ [space] ++ w)) as (l' & c' & -> & Hc' & Hj);
        [by destruct cur|done|].
      exists l', c'. split_and!; [done..|]. rewrite Hj.
      rewrite join_last_app. by rewrite <- app_assoc.
Qed.

Lemma wrapWord_lines (Fits : jstring → Prop) (all words : list jstring) :
  (∀ w, w ∈ all → w ≠ [] → Fits w) →
  (∀ line, line ≠ [] → tooWide line = false → Fits line) →
  ∀ lines currentLine,
  words ⊆ all → Forall Fits lines → (currentLine = [] ∨ Fits currentLine) →
  Forall Fits (foldl (PDFGenerator.wrapWord tooWide) (lines, currentLine) words).1
  ∧ ((foldl (PDFGenerator.wrapWord tooWide) (lines, currentLine) words).2 = []
     ∨ Fits (foldl (PDFGenerator.wrapWord tooWide) (lines, currentLine) words).2).
Proof.
  intros Hword Hfit.
  induction words as [|w words IH]; intros lines cur Hsub Hlines Hcur;
    simpl; [done|].
  assert (w ∈ all) as Hw by (apply Hsub; left).
  assert (words ⊆ all) as Hsub' by (intros x Hx; apply Hsub; by right).
  assert (w = [] ∨ Fits w) as Hw'.
  { destruct w as [|c w]; [by left|]. right. by apply Hword. }
  unfold truthy. destruct (bool_decide_reflect (cur = [])) as [->|Hne]; cbn [negb].
  - rewrite andb_false_r. simpl. by apply IH.
  - rewrite andb_true_r. destruct (tooWide _) eqn:Hwide.
    + apply IH; [done| |done].
      apply Forall_app. split; [done|]. apply Forall_singleton.
      by destruct Hcur.
    + apply IH; [done..|]. right. apply Hfit; [by destruct cur|done].
Qed.

(** Every line that [wrapText] returns holds some text, and is no wider
    than allowed unless it is a single word of the text. *)
Theorem wrapText_lines_fit (text line : jstring) :
  line ∈ PDFGenerator.wrapText tooWide text →
  line ≠ [] ∧ (tooWide line = false ∨ line ∈ split space text).
Proof.
  unfold PDFGenerator.wrapText.
  destruct (wrapWord_lines
              (λ line, line ≠ [] ∧ (tooWide line = false ∨ line ∈ split space text))
              (split space text) (split space text)) with (lines := @nil jstring)
    (currentLine := @nil ascii) as [Hlines Hcur]; [by auto..|].
  destruct (foldl _ _ _) as [lines cur]. simpl in *.
  unfold truthy. destruct (bool_decide_reflect (cur = [])) as [->|Hne];
    cbn [negb]; intros Hin.
  - by apply (proj1 (Forall_forall _ _) Hlines).
  - destruct Hcur as [?|Hcur]; [done|].
    apply elem_of_app in Hin as [Hin|Hin].
    + by apply (proj1 (Forall_forall _ _) Hlines).
    + by apply list_elem_of_singleton in Hin as ->.
Qed.

(** Wrapping loses no text when the words are separated by single spaces:
    the lines joined by spaces are the text again. *)
Theorem wrapText_keeps_text (text : jstring) :
  Forall (λ w, w ≠ []) (split space text) →
  join space (PDFGenerator.wrapText tooWide text) = text.
Proof.
  intros Hwords. unfold PDFGenerator.wrapText.
  rewrite <- (join_split space text) at 2.
  destruct (split space text) as [|w words]; [done|].
  inversion_clear Hwords as [|? ? Hw Hrest].
  cbn [foldl]. unfold PDFGenerator.wrapWord at 2.
  change (truthy []) with false. rewrite andb_false_r. cbn [app].
  destruct (wrapWord_text words [] w Hw Hrest) as (l' & c' & -> & Hc' & Hj).
  unfold truthy. rewrite (bool_decide_eq_false_2 (c' = [])) by done.
  cbn [negb]. rewrite Hj. simpl.
  clear. revert w. induction words as [|x words IH]; intros w; simpl.
  - by rewrite app_nil_r.
  - rewrite <- IH. done.
Qed.

End Wrap_facts.

Lemma wrapText_lines_fit_witness :
  let tooWide := λ line : jstring, 12 <? length line in
  str "Persiana" ∈ PDFGenerator.wrapText tooWide (str "Persiana Americana de Soda")
  ∧ str "Persiana" ≠ []
  ∧ (tooWide (str "Persiana") = false
     ∨ str "Persiana" ∈ split space (str "Persiana Americana de Soda")).
Proof.
  intros tooWide.
  assert (str "Persiana"
          ∈ PDFGenerator.wrapText tooWide (str "Persiana Americana de Soda"))
    as H by decide_by_compute.
  split; [exact H|].
  exact (wrapText_lines_fit tooWide _ _ H).
Defined.

Lemma wrapText_keeps_text_witness :
  let tooWide := λ line : jstring, 12 <? length line in
  Forall (λ w, w ≠ []) (split space (str "Persiana Americana de Soda"))
  ∧ PDFGenerator.wrapText tooWide (str "Persiana Americana de Soda")
    = [str "Persiana"; str "Americana de"; str "Soda"]
  ∧ join space (PDFGenerator.wrapText tooWide (str "Persiana Americana de Soda"))
    = str "Persiana Americana de Soda".
Proof.
  intros tooWide.
  assert (Forall (λ w, w ≠ []) (split space (str "Persiana Americana de Soda")))
    as H by decide_by_compute.
  split_and!; [exact H|reflexivity|].
  exact (wrapText_keeps_text tooWide _ H).
Defined.
